(** * pubsub.ts: a keyed publish/subscribe store

    Shallow embedding of [src/pubsub.ts] (class [PubSub]) together with the
    two collaborators it imports, [common.Subber] and [entry.Entry].

    Modelling conventions.
    - The JS objects used as dictionaries ([entryMap], the listener table of
      a [Subber]) are finite maps [gmap string _] holding the properties
      that were stored.  The entry map is a plain object, so reading it
      under a name of [Object.prototype] that was not stored finds the
      inherited value, which is truthy and is not an entry: the method then
      called on it does not exist and the call throws a [TypeError].
      [Object.prototype] is the standard one; its properties are not
      enumerable, so the loops over the keys do not see them.
    - Listeners are opaque: a listener is an element of an abstract type
      [Fn], and calling it is recorded as an [event].  A listener does not
      call back into the store while it runs.
    - Every public method is a function from the store to the way the call
      ends (a value returned, or a [TypeError] thrown), the store afterwards
      and the events it produced ([console.error] lines and listener
      calls), in order.
    - The numeric counter of a [Subber] is an unbounded natural number, and
      it is rendered in decimal when an identifier is minted. *)

From stdpp Require Import base option list gmap fin_maps strings pretty.


(** ** Strings: the routing prefix of a subscription identifier *)

(** The separator between the namespace and the number of an identifier. *)
Definition underscore : Ascii.ascii :=
  Ascii.Ascii true true true true true false true false.

(** [key.split("_")[0]]: the characters before the first underscore, the
    whole string when there is none. *)
Fixpoint split_first (str : string) : string :=
  match str with
  | EmptyString => EmptyString
  | String c rest =>
      if Ascii.eqb c underscore then EmptyString else String c (split_first rest)
  end.

(** Whether a string contains an underscore. *)
Fixpoint has_underscore (str : string) : bool :=
  match str with
  | EmptyString => false
  | String c rest => Ascii.eqb c underscore || has_underscore rest
  end.

(** ** Results and inherited names *)

(** How a call ends: it returns a value, or it throws a [TypeError] because
    it calls a method that the value at hand does not have. *)
Inductive result (A : Type) : Type :=
  | Returned (a : A)
  | Thrown.

Arguments Returned {A} a.
Arguments Thrown {A}.

(** The properties of [Object.prototype], which every plain object
    inherits. *)
Definition Object_prototype : list string :=
  ["constructor"; "__defineGetter__"; "__defineSetter__"; "hasOwnProperty";
   "__lookupGetter__"; "__lookupSetter__"; "isPrototypeOf";
   "propertyIsEnumerable"; "toString"; "valueOf"; "__proto__";
   "toLocaleString"].

(** Whether a name is inherited from [Object.prototype]. *)
Definition inherited (k : string) : bool :=
  bool_decide (k ∈ Object_prototype).

Section Store.

Context {T Fn : Type}.

(** What the outside world sees of a call: listener invocations
    [fn(val, key)] and lines written with [console.error]. *)
Inductive event :=
  | Notify (fn : Fn) (val : option T) (k : string)
  | ConsoleError (msg arg : string).

(** ** Subscriber registry *)

(** Modelled from the spec: [common.Subber], imported by [src/pubsub.ts] and
    not part of the sources.  A namespace, a counter that seeds the next
    identifier, and the table of listeners. *)
Record Subber := mkSubber {
  namespace : string;
  counter : N;
  listeners : gmap string Fn
}.

(** Modelled from the spec: [new common.Subber(prefix)]. *)
Definition Subber_new (ns : string) : Subber :=
  {| namespace := ns; counter := 0; listeners := ∅ |}.

(** Modelled from the spec: the identifier ["{namespace}_{counter}"] a
    [Subber] mints next. *)
Definition mint (sb : Subber) : string :=
  namespace sb +:+ "_" +:+ pretty (counter sb).

(** Modelled from the spec: [Subber.Sub(fn, explicitId?)].  With an explicit
    identifier the listener is stored under it verbatim; otherwise an
    identifier is minted and the counter advances. *)
Definition Subber_Sub (fn : Fn) (explicitId : option string) (sb : Subber)
  : string * Subber :=
  match explicitId with
  | Some id =>
      (id, {| namespace := namespace sb; counter := counter sb;
              listeners := <[id := fn]> (listeners sb) |})
  | None =>
      let id := mint sb in
      (id, {| namespace := namespace sb; counter := (counter sb + 1)%N;
              listeners := <[id := fn]> (listeners sb) |})
  end.

(** Modelled from the spec: [Subber.Unsub(id)], which reports whether the
    identifier was present. *)
Definition Subber_Unsub (id : string) (sb : Subber) : bool * Subber :=
  match listeners sb !! id with
  | Some _ =>
      (true, {| namespace := namespace sb; counter := counter sb;
                listeners := delete id (listeners sb) |})
  | None => (false, sb)
  end.

(** Modelled from the spec: [Subber.ForEach(fn)], one visit per listener
    currently registered, threading the effect of the visits through an
    accumulator. *)
Definition Subber_ForEach {A : Type} (f : string → Fn → A → A)
    (sb : Subber) (a : A) : A :=
  foldl (λ acc p, f p.1 p.2 acc) a (map_to_list (listeners sb)).

(** ** Entry *)

(** Modelled from the spec: [entry.Entry], imported by [src/pubsub.ts] and
    not part of the sources.  The key, the latest value ([None] until the
    first Put) and the listeners of that key. *)
Record Entry := mkEntry {
  key : string;
  value : option T;
  localSubs : Subber
}.

(** Modelled from the spec: [new entry.Entry(key)]. *)
Definition Entry_new (k : string) : Entry :=
  {| key := k; value := None; localSubs := Subber_new k |}.

(** Modelled from the spec: [Entry.Get()]; [None] stands for [null]. *)
Definition Entry_Get (e : Entry) : option T := value e.

(** The calls [fn(val, key)] made to every listener of an entry. *)
Definition notifications (val : option T) (e : Entry) : list event :=
  Subber_ForEach (λ _ fn evs, evs ++ [Notify fn val (key e)]) (localSubs e) [].

(** Modelled from the spec: [Entry.Put(val)] stores the value, then calls
    every listener with [(val, key)]. *)
Definition Entry_Put (val : T) (e : Entry) : Entry * list event :=
  ({| key := key e; value := Some val; localSubs := localSubs e |},
   notifications (Some val) e).

(** Modelled from the spec: [Entry.Sub(fn, explicitId?)]. *)
Definition Entry_Sub (fn : Fn) (explicitId : option string) (e : Entry)
  : string * Entry :=
  let '(id, sb) := Subber_Sub fn explicitId (localSubs e) in
  (id, {| key := key e; value := value e; localSubs := sb |}).

(** Modelled from the spec: [Entry.Unsub(id)]. *)
Definition Entry_Unsub (id : string) (e : Entry) : bool * Entry :=
  let '(b, sb) := Subber_Unsub id (localSubs e) in
  (b, {| key := key e; value := value e; localSubs := sb |}).

(** Modelled from the spec: [Entry.Close()] calls every listener with
    [(null, key)], then clears the listener table. *)
Definition Entry_Close (e : Entry) : Entry * list event :=
  ({| key := key e; value := value e;
      localSubs := {| namespace := namespace (localSubs e);
                      counter := counter (localSubs e);
                      listeners := ∅ |} |},
   notifications None e).

(** ** The store *)

(** [class PubSub]: the entry map [m] and the global subscribers [s]. *)
Record PubSub := mkPubSub {
  m : gmap string Entry;
  s : Subber
}.

(** How the call ended, the store afterwards, and the events produced. *)
Definition outcome (A : Type) : Type := result A * PubSub * list event.

(** A truthy value read from the entry map: an entry that was stored, or a
    value inherited from [Object.prototype], which has none of the methods
    of an entry. *)
Inductive obj :=
  | AnEntry (e : Entry)
  | Foreign.

(** [this.m[key]]: the entry stored under the key; failing that, the value
    inherited under it; failing that, [undefined]. *)
Definition index (k : string) (p : PubSub) : option obj :=
  match m p !! k with
  | Some e => Some (AnEntry e)
  | None => if inherited k then Some Foreign else None
  end.

(** [New()] / the constructor. *)
Definition New : PubSub :=
  {| m := ∅; s := Subber_new "global" |}.

(** The entry [createEntry] builds for a key that has none:
    [new entry.Entry(key)], then [this.s.ForEach((sKey, fn) => e.Sub(fn, sKey))]. *)
Definition fresh_entry (k : string) (p : PubSub) : Entry :=
  Subber_ForEach (λ sKey fn e, (Entry_Sub fn (Some sKey) e).2)
    (s p) (Entry_new k).

(** [createEntry(key)]: what [this.m[key]] holds when it is truthy;
    otherwise a new entry, stored under the key, with every global listener
    subscribed to it under its global identifier. *)
Definition createEntry (k : string) (p : PubSub) : obj * PubSub :=
  match index k p with
  | Some o => (o, p)
  | None =>
      let e := fresh_entry k p in
      (AnEntry e, {| m := <[k := e]> (m p); s := s p |})
  end.

(** [forEach(fn)]: the keys are listed first ([Object.keys]), then [fn] runs
    on the entry found under each of them.  [fn] here is an update of that
    entry, which is how both callers use it. *)
Definition forEach (f : string → Entry → Entry) (p : PubSub) : PubSub :=
  foldl (λ acc k,
           match m acc !! k with
           | Some e => {| m := <[k := f k e]> (m acc); s := s acc |}
           | None => acc
           end)
        p (map_to_list (m p)).*1.

(** [sub(fn)]: subscribe globally, then into every entry. *)
Definition sub (fn : Fn) (p : PubSub) : string * PubSub :=
  let '(sk, sb) := Subber_Sub fn None (s p) in
  (sk, forEach (λ _ e, (Entry_Sub fn (Some sk) e).2) {| m := m p; s := sb |}).

(** [unsub(key)]: unsubscribe globally, then from every entry. *)
Definition unsub (id : string) (p : PubSub) : outcome bool :=
  let '(found, sb) := Subber_Unsub id (s p) in
  if negb found then
    (Returned false, {| m := m p; s := sb |},
     [ConsoleError "Could not unsub key!" id])
  else
    (Returned true,
     forEach (λ _ e, (Entry_Unsub id e).2) {| m := m p; s := sb |}, []).

(** [Get(key)]: [null] when [this.m[key]] is falsy, [entry.Get()]
    otherwise, which an inherited value does not have. *)
Definition Get (k : string) (p : PubSub) : outcome (option T) :=
  match index k p with
  | None => (Returned None, p, [])
  | Some (AnEntry e) => (Returned (Entry_Get e), p, [])
  | Some Foreign => (Thrown, p, [])
  end.

(** [Put(key, val)]: [entry.Put(val)] on what [createEntry] returns. *)
Definition Put (k : string) (val : T) (p : PubSub) : outcome unit :=
  if decide (k = "*") then (Returned tt, p, [ConsoleError "invalid key" k])
  else
    let '(o, p1) := createEntry k p in
    match o with
    | AnEntry e =>
        let '(e', evs) := Entry_Put val e in
        (Returned tt, {| m := <[k := e']> (m p1); s := s p1 |}, evs)
    | Foreign => (Thrown, p1, [])
    end.

(** [Delete(key)]: [false] when [this.m[key]] is falsy; otherwise
    [entry.Close()], then [delete this.m[key]], which is [true]. *)
Definition Delete (k : string) (p : PubSub) : outcome bool :=
  match index k p with
  | None => (Returned false, p, [])
  | Some (AnEntry e) =>
      let '(e', evs) := Entry_Close e in
      (Returned true, {| m := delete k (<[k := e']> (m p)); s := s p |}, evs)
  | Some Foreign => (Thrown, p, [])
  end.

(** [Sub(key, fn)]: the global subscription for the wildcard, [entry.Sub(fn)]
    on what [createEntry] returns otherwise. *)
Definition Sub (k : string) (fn : Fn) (p : PubSub) : outcome string :=
  if decide (k = "*") then
    let '(sk, p') := sub fn p in (Returned sk, p', [])
  else
    let '(o, p1) := createEntry k p in
    match o with
    | AnEntry e =>
        let '(id, e') := Entry_Sub fn None e in
        (Returned id, {| m := <[k := e']> (m p1); s := s p1 |}, [])
    | Foreign => (Thrown, p1, [])
    end.

(** [Unsub(key)]: the global unsubscription when the prefix is ["global"];
    otherwise [false] when [this.m[entryKey]] is falsy, and
    [entry.Unsub(key)] when it is not. *)
Definition Unsub (id : string) (p : PubSub) : outcome bool :=
  let entryKey := split_first id in
  if decide (entryKey = "global") then unsub id p
  else
    match index entryKey p with
    | None => (Returned false, p, [])
    | Some (AnEntry e) =>
        let '(b, e') := Entry_Unsub id e in
        (Returned b, {| m := <[entryKey := e']> (m p); s := s p |}, [])
    | Some Foreign => (Thrown, p, [])
    end.

(** One turn of the loop of [Close()]: close the entry under [k] and delete
    the key. *)
Definition Close_step (acc : PubSub * list event) (k : string)
  : PubSub * list event :=
  match m acc.1 !! k with
  | Some e =>
      let '(e', evs) := Entry_Close e in
      ({| m := delete k (<[k := e']> (m acc.1)); s := s acc.1 |},
       acc.2 ++ evs)
  | None => acc
  end.

(** [Close()]: [for (var k in this.m)], which visits the stored keys. *)
Definition Close (p : PubSub) : outcome unit :=
  let '(p', evs) := foldl Close_step (p, []) (map_to_list (m p)).*1 in
  (Returned tt, p', evs).

(** ** Calls and reachable stores *)

(** A call of a public method. *)
Inductive call :=
  | CallGet (k : string)
  | CallPut (k : string) (val : T)
  | CallDelete (k : string)
  | CallSub (k : string) (fn : Fn)
  | CallUnsub (id : string)
  | CallClose.

(** The store after a call. *)
Definition exec (c : call) (p : PubSub) : PubSub :=
  match c with
  | CallGet k => (Get k p).1.2
  | CallPut k val => (Put k val p).1.2
  | CallDelete k => (Delete k p).1.2
  | CallSub k fn => (Sub k fn p).1.2
  | CallUnsub id => (Unsub id p).1.2
  | CallClose => (Close p).1.2
  end.

(** The stores a program can build: [New()] followed by public calls. *)
Inductive reachable : PubSub → Prop :=
  | reachable_New : reachable New
  | reachable_exec c p : reachable p → reachable (exec c p).

(** The store after a sequence of calls, first call first. *)
Definition run (cs : list call) (p : PubSub) : PubSub :=
  foldl (λ acc c, exec c acc) p cs.

(** The calls that create the entry of [k] when it is missing. *)
Definition creates (k : string) (c : call) : Prop :=
  match c with
  | CallPut k' _ | CallSub k' _ => k' = k
  | _ => False
  end.

(** The store has an entry for the key or can create one: the key is stored
    or is not an inherited name. *)
Definition serves (k : string) (p : PubSub) : Prop :=
  is_Some (m p !! k) ∨ inherited k = false.

(** The entry a call on a served key works on: the one stored, or the one
    [createEntry] builds. *)
Definition the_entry (k : string) (p : PubSub) : Entry :=
  default (fresh_entry k p) (m p !! k).

(** An entry with one identifier removed from its listeners, the key, the
    value and the counter being kept. *)
Definition remove_listener (id : string) (e : Entry) : Entry :=
  {| key := key e; value := value e;
     localSubs := {| namespace := namespace (localSubs e);
                     counter := counter (localSubs e);
                     listeners := delete id (listeners (localSubs e)) |} |}.

(** ** Invariants *)

(** The identifiers the global registry mints. *)
Definition global_id (id : string) : Prop :=
  ∃ n : N, id = "global" +:+ "_" +:+ pretty n.

(** What every reachable store satisfies: the global registry is named
    ["global"] and holds identifiers it minted; an entry is stored under its
    own key, which is also the namespace of its registry and is not an
    inherited name; and there is no entry under the wildcard. *)
Definition wf (p : PubSub) : Prop :=
  namespace (s p) = "global" ∧
  (∀ id, is_Some (listeners (s p) !! id) → global_id id) ∧
  (∀ k e, m p !! k = Some e →
     key e = k ∧ namespace (localSubs e) = k ∧ inherited k = false) ∧
  m p !! "*" = None.

(** Fan-out consistency: a global listener is registered, under the same
    identifier, in every entry. *)
Definition fan_out (p : PubSub) : Prop :=
  ∀ sk fn, listeners (s p) !! sk = Some fn →
  ∀ k e, m p !! k = Some e → listeners (localSubs e) !! sk = Some fn.

(** Fan-out consistency for the entries whose key is not ["global"]. *)
Definition fan_out_local (p : PubSub) : Prop :=
  ∀ sk fn, listeners (s p) !! sk = Some fn →
  ∀ k e, k ≠ "global" → m p !! k = Some e →
  listeners (localSubs e) !! sk = Some fn.

(** A list of listeners forwarded into an entry one by one, each under its
    own identifier; the loop [fresh_entry] runs, on an arbitrary list. *)
Definition forward (l : list (string * Fn)) (e : Entry) : Entry :=
  foldl (λ acc p, (Entry_Sub p.2 (Some p.1) acc).2) e l.

(** Where the identifiers of a store come from.  The global registry holds
    identifiers it minted, numbered below its counter.  An entry whose key is
    not ["global"] holds a listener either under a global identifier, the
    global registry holding the same listener under it, or under an
    identifier its own registry minted, numbered below its counter. *)
Definition ids_bounded (p : PubSub) : Prop :=
  (∀ id, is_Some (listeners (s p) !! id) →
     ∃ n : N, (n < counter (s p))%N ∧ id = "global" +:+ "_" +:+ pretty n) ∧
  (∀ k e, m p !! k = Some e → k ≠ "global" →
     ∀ id fn, listeners (localSubs e) !! id = Some fn →
       listeners (s p) !! id = Some fn ∨
       ∃ n : N, (n < counter (localSubs e))%N ∧
                id = k +:+ "_" +:+ pretty n).

(** ** Facts about identifiers *)

Lemma underscore_literal : String underscore EmptyString = "_".
Proof. reflexivity. Qed.

Lemma append_nil (b : string) : "" +:+ b = b.
Proof. reflexivity. Qed.

Lemma append_cons (c : Ascii.ascii) (a b : string) :
  String c a +:+ b = String c (a +:+ b).
Proof. reflexivity. Qed.

Lemma has_underscore_app (a b : string) :
  has_underscore (a +:+ b) = has_underscore a || has_underscore b.
Proof.
  induction a as [|c a IH]; simpl; [done|].
  rewrite IH. by destruct (Ascii.eqb c underscore).
Qed.

Lemma split_first_clean (a : string) : has_underscore (split_first a) = false.
Proof.
  induction a as [|c a IH]; simpl; [done|].
  destruct (Ascii.eqb c underscore) eqn:Hc; simpl; [done|]. by rewrite Hc.
Qed.

Lemma split_first_id (a : string) :
  has_underscore a = false → split_first a = a.
Proof.
  induction a as [|c a IH]; simpl; [done|].
  destruct (Ascii.eqb c underscore); simpl; [done|].
  intros Ha. by rewrite IH.
Qed.

Lemma split_first_sep (a b : string) :
  has_underscore a = false → split_first (a +:+ "_" +:+ b) = a.
Proof.
  induction a as [|c a IH]; simpl; [done|].
  destruct (Ascii.eqb c underscore); simpl; [done|].
  intros Ha. by rewrite IH.
Qed.

Lemma split_first_app (a b : string) :
  has_underscore a = true → split_first (a +:+ b) = split_first a.
Proof.
  induction a as [|c a IH]; simpl; [done|].
  destruct (Ascii.eqb c underscore); simpl; [done|].
  intros Ha. by rewrite IH.
Qed.

(** An identifier splits in one way only at its last underscore. *)
Lemma last_sep_unique (a a' b b' : string) :
  has_underscore b = false → has_underscore b' = false →
  a +:+ "_" +:+ b = a' +:+ "_" +:+ b' → a = a' ∧ b = b'.
Proof.
  intros Hb Hb'. revert a'.
  induction a as [|c a IH]; intros [|c' a'];
    repeat (rewrite append_nil || rewrite append_cons); intros Heq.
  - by injection Heq as ->.
  - injection Heq as _ ->. rewrite has_underscore_app in Hb. simpl in Hb.
    by rewrite orb_true_r in Hb.
  - injection Heq as _ <-. rewrite has_underscore_app in Hb'. simpl in Hb'.
    by rewrite orb_true_r in Hb'.
  - injection Heq as -> Heq. destruct (IH a' Heq) as [-> ->]; done.
Qed.

Lemma pretty_N_go_clean (x : N) (acc : string) :
  has_underscore acc = false → has_underscore (pretty_N_go x acc) = false.
Proof.
  revert acc. induction (N.lt_wf_0 x) as [x _ IH]; intros acc Hacc.
  destruct (decide (x = 0%N)) as [->|Hx]; [by rewrite pretty_N_go_0|].
  rewrite pretty_N_go_step by lia.
  apply IH; [apply N.div_lt; lia|].
  simpl. rewrite Hacc. unfold pretty_N_char. by repeat case_match.
Qed.

(** The decimal rendering of a counter has no underscore. *)
Lemma pretty_N_clean (n : N) : has_underscore (pretty n) = false.
Proof.
  unfold pretty, pretty_N. case_decide; [done|]. by apply pretty_N_go_clean.
Qed.

(** The routing prefix of a minted identifier whose namespace has an
    underscore is the prefix of the namespace. *)
Lemma split_first_mint_dirty (sb : Subber) :
  has_underscore (namespace sb) = true →
  split_first (mint sb) = split_first (namespace sb).
Proof. intros H. unfold mint. by apply split_first_app. Qed.

Lemma split_first_mint_clean (sb : Subber) :
  has_underscore (namespace sb) = false →
  split_first (mint sb) = namespace sb.
Proof. intros H. unfold mint. by apply split_first_sep. Qed.

(** ** Iteration over a registry *)

Lemma foldl_snoc_fmap {A B : Type} (g : A → B) (l : list A) (acc : list B) :
  foldl (λ acc x, acc ++ [g x]) acc l = acc ++ (g <$> l).
Proof.
  revert acc. induction l as [|x l IH]; intros acc; simpl.
  - by rewrite app_nil_r.
  - rewrite IH. by rewrite <- app_assoc.
Qed.

(** The listeners of an entry are each called once. *)
Lemma notifications_fmap (val : option T) (e : Entry) :
  notifications val e
  = (λ p, Notify p.2 val (key e)) <$> map_to_list (listeners (localSubs e)).
Proof. unfold notifications, Subber_ForEach. by rewrite foldl_snoc_fmap. Qed.

Lemma notifications_elem (val : option T) (e : Entry) (id : string) (fn : Fn) :
  listeners (localSubs e) !! id = Some fn →
  Notify fn val (key e) ∈ notifications val e.
Proof.
  intros Hid. rewrite notifications_fmap. apply list_elem_of_fmap.
  exists (id, fn). split; [done|]. by apply elem_of_map_to_list.
Qed.

Lemma forward_fields (l : list (string * Fn)) (e : Entry) :
  key (forward l e) = key e ∧ value (forward l e) = value e ∧
  namespace (localSubs (forward l e)) = namespace (localSubs e) ∧
  counter (localSubs (forward l e)) = counter (localSubs e).
Proof.
  revert e. induction l as [|[id fn] l IH]; intros e; [done|].
  change (forward ((id, fn) :: l) e)
    with (forward l (Entry_Sub fn (Some id) e).2).
  destruct (IH (Entry_Sub fn (Some id) e).2) as (-> & -> & -> & ->). done.
Qed.

Lemma forward_listeners (l : list (string * Fn)) (e : Entry) :
  NoDup l.*1 →
  listeners (localSubs (forward l e))
  = list_to_map l ∪ listeners (localSubs e).
Proof.
  revert e. induction l as [|[id fn] l IH]; intros e Hnd.
  - simpl. by rewrite (left_id_L ∅ (∪)).
  - apply NoDup_cons in Hnd as [Hid Hnd].
    change (forward ((id, fn) :: l) e)
      with (forward l (Entry_Sub fn (Some id) e).2).
    rewrite IH by done. simpl.
    rewrite <- insert_union_l. rewrite insert_union_r; [done|].
    by apply not_elem_of_list_to_map_1.
Qed.

Lemma fresh_entry_fields (k : string) (p : PubSub) :
  key (fresh_entry k p) = k ∧ value (fresh_entry k p) = None ∧
  namespace (localSubs (fresh_entry k p)) = k ∧
  counter (localSubs (fresh_entry k p)) = 0%N ∧
  listeners (localSubs (fresh_entry k p)) = listeners (s p).
Proof.
  unfold fresh_entry, Subber_ForEach.
  change (foldl _ (Entry_new k) ?l) with (forward l (Entry_new k)).
  destruct (forward_fields (map_to_list (listeners (s p))) (Entry_new k))
    as (-> & -> & -> & ->).
  rewrite forward_listeners by apply NoDup_fst_map_to_list.
  rewrite list_to_map_to_list. simpl. by rewrite (right_id_L ∅ (∪)).
Qed.

Lemma index_stored (k : string) (p : PubSub) (e : Entry) :
  m p !! k = Some e → index k p = Some (AnEntry e).
Proof. intros H. unfold index. by rewrite H. Qed.

Lemma index_missing (k : string) (p : PubSub) :
  m p !! k = None → inherited k = false → index k p = None.
Proof. intros H Hi. unfold index. by rewrite H, Hi. Qed.

Lemma index_inherited (k : string) (p : PubSub) :
  m p !! k = None → inherited k = true → index k p = Some Foreign.
Proof. intros H Hi. unfold index. by rewrite H, Hi. Qed.

(** A key is served, or it is an inherited name without an entry. *)
Lemma serves_or_not (k : string) (p : PubSub) :
  serves k p ∨ (m p !! k = None ∧ inherited k = true).
Proof.
  unfold serves. destruct (m p !! k) as [e|]; [left; left; by eexists|].
  destruct (inherited k); [by right|by left; right].
Qed.

Lemma createEntry_present (k : string) (p : PubSub) (e : Entry) :
  m p !! k = Some e → createEntry k p = (AnEntry e, p).
Proof. intros H. unfold createEntry. by rewrite (index_stored _ _ _ H). Qed.

Lemma createEntry_absent (k : string) (p : PubSub) :
  m p !! k = None → inherited k = false →
  createEntry k p
  = (AnEntry (fresh_entry k p),
     {| m := <[k := fresh_entry k p]> (m p); s := s p |}).
Proof. intros H Hi. unfold createEntry. by rewrite index_missing. Qed.

Lemma createEntry_inherited (k : string) (p : PubSub) :
  m p !! k = None → inherited k = true → createEntry k p = (Foreign, p).
Proof. intros H Hi. unfold createEntry. by rewrite index_inherited. Qed.

Lemma the_entry_present (k : string) (p : PubSub) (e : Entry) :
  m p !! k = Some e → the_entry k p = e.
Proof. intros H. unfold the_entry. by rewrite H. Qed.

Lemma the_entry_absent (k : string) (p : PubSub) :
  m p !! k = None → the_entry k p = fresh_entry k p.
Proof. intros H. unfold the_entry. by rewrite H. Qed.

(** On a served key [createEntry] returns an entry, which is afterwards the
    one stored under the key; the other keys and the global registry are
    untouched. *)
Lemma createEntry_serves (k : string) (p : PubSub) :
  serves k p →
  createEntry k p
  = (AnEntry (the_entry k p),
     {| m := <[k := the_entry k p]> (m p); s := s p |}).
Proof.
  intros Hserves. destruct (m p !! k) as [e|] eqn:Hk.
  - rewrite (createEntry_present _ _ _ Hk), (the_entry_present _ _ _ Hk).
    rewrite insert_id by done. by destruct p.
  - destruct Hserves as [[e He]|Hi]; [congruence|].
    by rewrite createEntry_absent, the_entry_absent.
Qed.

(** ** Iteration over the entries *)

Lemma forEach_loop (f : string → Entry → Entry) (ks : list string) (p : PubSub) :
  NoDup ks →
  let p' :=
    foldl (λ acc k,
             match m acc !! k with
             | Some e => {| m := <[k := f k e]> (m acc); s := s acc |}
             | None => acc
             end) p ks in
  s p' = s p ∧
  ∀ k, m p' !! k = if decide (k ∈ ks) then f k <$> m p !! k else m p !! k.
Proof.
  revert p. induction ks as [|k0 ks IH]; intros p Hnd; cbn [foldl].
  - split; [done|]. intros k. case_decide as Hin; [|done]. by inversion Hin.
  - apply NoDup_cons in Hnd as [Hk0 Hnd].
    set (p1 := match m p !! k0 with
               | Some e => {| m := <[k0 := f k0 e]> (m p); s := s p |}
               | None => p
               end).
    assert (s p1 = s p) as Hs by (subst p1; by destruct (m p !! k0)).
    assert (∀ k, m p1 !! k = if decide (k = k0) then f k <$> m p !! k
                             else m p !! k) as Hm.
    { intros k. subst p1. destruct (m p !! k0) as [e|] eqn:He; simpl.
      - rewrite lookup_insert. repeat case_decide; subst; try done.
        by rewrite He.
      - case_decide; [subst; by rewrite He|done]. }
    destruct (IH p1 Hnd) as [IHs IHm]. split; [congruence|].
    intros k. rewrite IHm, Hm.
    destruct (decide (k = k0)) as [->|Hne].
    + rewrite decide_False by done. rewrite decide_True by left. done.
    + destruct (decide (k ∈ ks)) as [Hin|Hin].
      * rewrite decide_True by (by right). done.
      * rewrite decide_False; [done|].
        intros Hc. apply elem_of_cons in Hc as [?|?]; done.
Qed.

(** [forEach] updates every entry in place and nothing else. *)
Lemma forEach_spec (f : string → Entry → Entry) (p : PubSub) :
  s (forEach f p) = s p ∧ ∀ k, m (forEach f p) !! k = f k <$> m p !! k.
Proof.
  destruct (forEach_loop f (map_to_list (m p)).*1 p
              (NoDup_fst_map_to_list (m p))) as [Hs Hm].
  split; [exact Hs|]. intros k. unfold forEach. rewrite Hm.
  case_decide as Hin; [done|].
  destruct (m p !! k) as [e|] eqn:He; [|done].
  destruct Hin. apply list_elem_of_fmap. exists (k, e).
  split; [done|]. by apply elem_of_map_to_list.
Qed.

(** ** The loop of [Close] *)

Lemma foldl_delete_lookup {V : Type} (ks : list string) (mp : gmap string V)
    (k : string) :
  foldl (λ acc k, delete k acc) mp ks !! k
  = if decide (k ∈ ks) then None else mp !! k.
Proof.
  revert mp. induction ks as [|k0 ks IH]; intros mp; cbn [foldl].
  - case_decide as Hin; [by inversion Hin|done].
  - rewrite IH. destruct (decide (k ∈ ks)) as [Hin|Hin].
    + by rewrite decide_True by (by right).
    + rewrite lookup_delete. destruct (decide (k0 = k)) as [->|Hne].
      * by rewrite decide_True by left.
      * rewrite decide_False; [done|].
        intros Hc. apply elem_of_cons in Hc as [?|?]; congruence.
Qed.

Lemma Close_loop (l : list (string * Entry)) (p : PubSub) (evs : list event) :
  NoDup l.*1 →
  (∀ k e, (k, e) ∈ l → m p !! k = Some e) →
  foldl Close_step (p, evs) l.*1
  = ({| m := foldl (λ acc k, delete k acc) (m p) l.*1; s := s p |},
     evs ++ concat ((λ ke, notifications None ke.2) <$> l)).
Proof.
  revert p evs. induction l as [|[k0 e0] l IH]; intros p evs Hnd Hl; simpl.
  - rewrite app_nil_r. by destruct p.
  - apply NoDup_cons in Hnd as [Hk0 Hnd].
    unfold Close_step at 2. simpl.
    rewrite (Hl k0 e0) by left. simpl.
    rewrite IH; [|done|].
    + simpl. rewrite delete_insert_eq. by rewrite <- app_assoc.
    + intros k e Hin. simpl. rewrite delete_insert_eq.
      rewrite lookup_delete_ne; [apply Hl; by right|].
      intros ->. apply Hk0. apply list_elem_of_fmap. by exists (k, e).
Qed.

(** [Close] closes every entry, in the order of the iteration, and leaves no
    entry behind. *)
Lemma Close_spec (p : PubSub) :
  Close p
  = (Returned tt, {| m := ∅; s := s p |},
     concat ((λ ke, notifications None ke.2) <$> map_to_list (m p))).
Proof.
  unfold Close.
  rewrite (Close_loop (map_to_list (m p)) p []).
  - simpl. do 2 f_equal. f_equal. apply map_eq. intros k.
    rewrite foldl_delete_lookup, lookup_empty.
    case_decide as Hin; [done|].
    destruct (m p !! k) as [e|] eqn:He; [|done].
    destruct Hin. apply list_elem_of_fmap. exists (k, e).
    split; [done|]. by apply elem_of_map_to_list.
  - apply NoDup_fst_map_to_list.
  - intros k e. apply elem_of_map_to_list.
Qed.

(** ** The methods, one equation each *)

Lemma store_eta (p : PubSub) : {| m := m p; s := s p |} = p.
Proof. by destruct p. Qed.

Lemma Entry_Unsub_spec (id : string) (e : Entry) :
  (Entry_Unsub id e).1 = bool_decide (is_Some (listeners (localSubs e) !! id)) ∧
  key (Entry_Unsub id e).2 = key e ∧
  value (Entry_Unsub id e).2 = value e ∧
  namespace (localSubs (Entry_Unsub id e).2) = namespace (localSubs e) ∧
  listeners (localSubs (Entry_Unsub id e).2)
  = delete id (listeners (localSubs e)).
Proof.
  unfold Entry_Unsub, Subber_Unsub.
  destruct (listeners (localSubs e) !! id) as [fn|] eqn:Hid; simpl.
  - split_and!; done.
  - split_and!; try done. by rewrite delete_id.
Qed.

Lemma the_entry_fields (k : string) (p : PubSub) :
  wf p →
  key (the_entry k p) = k ∧ namespace (localSubs (the_entry k p)) = k.
Proof.
  intros (_ & _ & Hent & _). destruct (m p !! k) as [e|] eqn:Hk.
  - rewrite (the_entry_present _ _ _ Hk). by destruct (Hent k e Hk) as (? & ? & _).
  - rewrite (the_entry_absent _ _ Hk).
    by destruct (fresh_entry_fields k p) as (-> & _ & -> & _).
Qed.

(** The entry a call works on holds the global listeners. *)
Lemma the_entry_forwarded (k : string) (p : PubSub) (sk : string) (fn : Fn) :
  fan_out_local p → k ≠ "global" →
  listeners (s p) !! sk = Some fn →
  listeners (localSubs (the_entry k p)) !! sk = Some fn.
Proof.
  intros Hfan Hk Hsk. destruct (m p !! k) as [e|] eqn:He.
  - rewrite (the_entry_present _ _ _ He). by eapply Hfan.
  - rewrite (the_entry_absent _ _ He).
    destruct (fresh_entry_fields k p) as (_ & _ & _ & _ & ->). done.
Qed.

Lemma serves_wildcard (k : string) (p : PubSub) :
  m p !! k = None → inherited k = true → k ≠ "*".
Proof. intros _ Hi ->. discriminate. Qed.

Lemma Get_stored (k : string) (p : PubSub) (e : Entry) :
  m p !! k = Some e → Get k p = (Returned (Entry_Get e), p, []).
Proof. intros H. unfold Get. by rewrite (index_stored _ _ _ H). Qed.

Lemma Get_missing (k : string) (p : PubSub) :
  m p !! k = None → inherited k = false → Get k p = (Returned None, p, []).
Proof. intros H Hi. unfold Get. by rewrite index_missing. Qed.

Lemma Get_thrown (k : string) (p : PubSub) :
  m p !! k = None → inherited k = true → Get k p = (Thrown, p, []).
Proof. intros H Hi. unfold Get. by rewrite index_inherited. Qed.

Lemma Get_state (k : string) (p : PubSub) : (Get k p).1.2 = p ∧ (Get k p).2 = [].
Proof. unfold Get. by destruct (index k p) as [[e|]|]. Qed.

Lemma Put_wildcard (val : T) (p : PubSub) :
  Put "*" val p = (Returned tt, p, [ConsoleError "invalid key" "*"]).
Proof. done. Qed.

Lemma Put_eq (k : string) (val : T) (p : PubSub) :
  k ≠ "*" → serves k p →
  Put k val p
  = (Returned tt,
     {| m := <[k := {| key := key (the_entry k p);
                       value := Some val;
                       localSubs := localSubs (the_entry k p) |}]> (m p);
        s := s p |},
     notifications (Some val) (the_entry k p)).
Proof.
  intros Hk Hserves. unfold Put. rewrite decide_False by done.
  rewrite createEntry_serves by done. simpl. by rewrite insert_insert_eq.
Qed.

Lemma Put_thrown (k : string) (val : T) (p : PubSub) :
  m p !! k = None → inherited k = true → Put k val p = (Thrown, p, []).
Proof.
  intros Hnone Hi. unfold Put.
  rewrite decide_False by (by eapply serves_wildcard).
  by rewrite createEntry_inherited.
Qed.

Lemma Sub_wildcard (fn : Fn) (p : PubSub) :
  Sub "*" fn p = (Returned (sub fn p).1, (sub fn p).2, []).
Proof. unfold Sub. simpl. by destruct (sub fn p). Qed.

Lemma Sub_eq (k : string) (fn : Fn) (p : PubSub) :
  k ≠ "*" → serves k p →
  Sub k fn p
  = (Returned (mint (localSubs (the_entry k p))),
     {| m := <[k := (Entry_Sub fn None (the_entry k p)).2]> (m p);
        s := s p |},
     []).
Proof.
  intros Hk Hserves. unfold Sub. rewrite decide_False by done.
  rewrite createEntry_serves by done. simpl. by rewrite insert_insert_eq.
Qed.

Lemma Sub_thrown (k : string) (fn : Fn) (p : PubSub) :
  m p !! k = None → inherited k = true → Sub k fn p = (Thrown, p, []).
Proof.
  intros Hnone Hi. unfold Sub.
  rewrite decide_False by (by eapply serves_wildcard).
  by rewrite createEntry_inherited.
Qed.

Lemma sub_spec (fn : Fn) (p : PubSub) :
  (sub fn p).1 = mint (s p) ∧
  s (sub fn p).2 = (Subber_Sub fn None (s p)).2 ∧
  ∀ k, m (sub fn p).2 !! k
       = (λ e, (Entry_Sub fn (Some (mint (s p))) e).2) <$> m p !! k.
Proof.
  unfold sub. simpl.
  match goal with |- context [forEach ?f ?q] =>
    destruct (forEach_spec f q) as [Hs Hm] end.
  split_and!; [done|by rewrite Hs|]. intros k. by rewrite Hm.
Qed.

Lemma unsub_absent (id : string) (p : PubSub) :
  listeners (s p) !! id = None →
  unsub id p = (Returned false, p, [ConsoleError "Could not unsub key!" id]).
Proof.
  intros Hid. unfold unsub, Subber_Unsub. rewrite Hid. simpl.
  by rewrite store_eta.
Qed.

Lemma unsub_present (id : string) (p : PubSub) :
  is_Some (listeners (s p) !! id) →
  ∃ p', unsub id p = (Returned true, p', []) ∧
        namespace (s p') = namespace (s p) ∧
        counter (s p') = counter (s p) ∧
        listeners (s p') = delete id (listeners (s p)) ∧
        ∀ k, m p' !! k = (λ e, (Entry_Unsub id e).2) <$> m p !! k.
Proof.
  intros [fn Hid]. unfold unsub, Subber_Unsub. rewrite Hid. simpl.
  match goal with |- context [forEach ?f ?q] =>
    destruct (forEach_spec f q) as [Hs Hm]; exists (forEach f q) end.
  rewrite Hs. simpl. split_and!; try done.
Qed.

Lemma Delete_absent (k : string) (p : PubSub) :
  m p !! k = None → inherited k = false → Delete k p = (Returned false, p, []).
Proof. intros Hk Hi. unfold Delete. by rewrite index_missing. Qed.

Lemma Delete_present (k : string) (p : PubSub) (e : Entry) :
  m p !! k = Some e →
  Delete k p
  = (Returned true, {| m := delete k (m p); s := s p |}, notifications None e).
Proof.
  intros Hk. unfold Delete. rewrite (index_stored _ _ _ Hk). simpl.
  by rewrite delete_insert_eq.
Qed.

Lemma Delete_thrown (k : string) (p : PubSub) :
  m p !! k = None → inherited k = true → Delete k p = (Thrown, p, []).
Proof. intros Hk Hi. unfold Delete. by rewrite index_inherited. Qed.

(** A [Delete] on a key without an entry changes nothing, however it ends. *)
Lemma Delete_none (k : string) (p : PubSub) :
  m p !! k = None → (Delete k p).1.2 = p ∧ (Delete k p).2 = [].
Proof.
  intros Hk. destruct (inherited k) eqn:Hi.
  - by rewrite Delete_thrown.
  - by rewrite Delete_absent.
Qed.

Lemma Unsub_global (id : string) (p : PubSub) :
  split_first id = "global" → Unsub id p = unsub id p.
Proof. intros H. unfold Unsub. by rewrite decide_True. Qed.

Lemma Unsub_stored (id : string) (p : PubSub) (e : Entry) :
  split_first id ≠ "global" → m p !! split_first id = Some e →
  Unsub id p
  = (Returned (Entry_Unsub id e).1,
     {| m := <[split_first id := (Entry_Unsub id e).2]> (m p); s := s p |},
     []).
Proof.
  intros Hroute He. unfold Unsub. rewrite decide_False by done.
  rewrite (index_stored _ _ _ He). by destruct (Entry_Unsub id e).
Qed.

Lemma Unsub_missing (id : string) (p : PubSub) :
  split_first id ≠ "global" → m p !! split_first id = None →
  inherited (split_first id) = false →
  Unsub id p = (Returned false, p, []).
Proof.
  intros Hroute He Hi. unfold Unsub. rewrite decide_False by done.
  by rewrite index_missing.
Qed.

Lemma Unsub_thrown (id : string) (p : PubSub) :
  m p !! split_first id = None → inherited (split_first id) = true →
  Unsub id p = (Thrown, p, []).
Proof.
  intros He Hi. unfold Unsub.
  rewrite decide_False by (intros Heq; rewrite Heq in Hi; discriminate).
  by rewrite index_inherited.
Qed.

(** An [Unsub] routed to a key without an entry changes nothing, however it
    ends. *)
Lemma Unsub_none (id : string) (p : PubSub) :
  split_first id ≠ "global" → m p !! split_first id = None →
  (Unsub id p).1.2 = p ∧ (Unsub id p).2 = [] ∧ (Unsub id p).1.1 ≠ Returned true.
Proof.
  intros Hroute He. destruct (inherited (split_first id)) eqn:Hi.
  - by rewrite Unsub_thrown.
  - by rewrite Unsub_missing.
Qed.
(** ** The invariants hold in every reachable store *)

Lemma global_id_prefix (id : string) : global_id id → split_first id = "global".
Proof. intros [n ->]. by apply split_first_sep. Qed.

(** A registry whose namespace is not ["global"] never mints an identifier
    of the global registry. *)
Lemma mint_not_global (sb : Subber) :
  namespace sb ≠ "global" → ¬ global_id (mint sb).
Proof.
  intros Hns [n Hn]. unfold mint in Hn.
  apply last_sep_unique in Hn as [? _]; [done|apply pretty_N_clean..].
Qed.

Lemma serves_inherited (k : string) (p : PubSub) :
  wf p → serves k p → inherited k = false.
Proof.
  intros (_ & _ & Hent & _) [[e He]|Hi]; [|done]. by destruct (Hent k e He) as (_ & _ & ?).
Qed.

Lemma wf_New : wf New.
Proof.
  split_and!; [done| | |done].
  - intros id [fn Hid]. by destruct (lookup_empty_Some (M:=gmap string) id fn).
  - intros k e He. by destruct (lookup_empty_Some (M:=gmap string) k e).
Qed.

Lemma wf_Put (k : string) (val : T) (p : PubSub) : wf p → wf (Put k val p).1.2.
Proof.
  intros Hwf. destruct (decide (k = "*")) as [->|Hk]; [done|].
  destruct (serves_or_not k p) as [Hserves|[Hnone Hi]];
    [|by rewrite Put_thrown].
  rewrite Put_eq by done. simpl.
  destruct (the_entry_fields k p Hwf) as [Hkey Hns].
  pose proof (serves_inherited k p Hwf Hserves) as Hi.
  destruct Hwf as (Hg & Hids & Hent & Hstar).
  split_and!; simpl; [done..| |by rewrite lookup_insert_ne].
  intros k' e [[<- <-]|[_ He]]%lookup_insert_Some; [done|by apply Hent].
Qed.

Lemma wf_Sub (k : string) (fn : Fn) (p : PubSub) : wf p → wf (Sub k fn p).1.2.
Proof.
  intros Hwf. destruct (decide (k = "*")) as [->|Hk].
  - rewrite Sub_wildcard. cbn [fst snd].
    destruct (sub_spec fn p) as (_ & Hs & Hm).
    destruct Hwf as (Hg & Hids & Hent & Hstar).
    split_and!.
    + by rewrite Hs.
    + intros id. rewrite Hs. simpl.
      intros [<-|[_ Hid]]%lookup_insert_is_Some; [|by apply Hids].
      exists (counter (s p)). unfold mint. by rewrite Hg.
    + intros k e. rewrite Hm. intros He.
      apply fmap_Some in He as (e0 & He0 & ->). simpl. by apply Hent.
    + by rewrite Hm, Hstar.
  - destruct (serves_or_not k p) as [Hserves|[Hnone Hi]];
      [|by rewrite Sub_thrown].
    rewrite Sub_eq by done. simpl.
    destruct (the_entry_fields k p Hwf) as [Hkey Hns].
    pose proof (serves_inherited k p Hwf Hserves) as Hi.
    destruct Hwf as (Hg & Hids & Hent & Hstar).
    split_and!; simpl; [done..| |by rewrite lookup_insert_ne].
    intros k' e [[<- <-]|[_ He]]%lookup_insert_Some; [done|by apply Hent].
Qed.

Lemma wf_unsub (id : string) (p : PubSub) : wf p → wf (unsub id p).1.2.
Proof.
  intros Hwf. destruct (listeners (s p) !! id) as [fn|] eqn:Hid.
  - destruct (unsub_present id p) as (p' & -> & Hns & _ & Hl & Hm); [by eexists|].
    destruct Hwf as (Hg & Hids & Hent & Hstar). simpl.
    split_and!.
    + congruence.
    + intros id'. rewrite Hl. intros [_ ?]%lookup_delete_is_Some. by apply Hids.
    + intros k e. rewrite Hm. intros He.
      apply fmap_Some in He as (e0 & He0 & ->).
      destruct (Entry_Unsub_spec id e0) as (_ & -> & _ & -> & _).
      by apply Hent.
    + by rewrite Hm, Hstar.
  - by rewrite unsub_absent.
Qed.

Lemma wf_Unsub (id : string) (p : PubSub) : wf p → wf (Unsub id p).1.2.
Proof.
  intros Hwf. destruct (decide (split_first id = "global")) as [Hroute|Hroute].
  - rewrite Unsub_global by done. by apply wf_unsub.
  - destruct (m p !! split_first id) as [e|] eqn:He;
      [|by rewrite (proj1 (Unsub_none id p Hroute He))].
    rewrite (Unsub_stored _ _ _ Hroute He). cbn [fst snd].
    destruct (Entry_Unsub_spec id e) as (_ & Hkey & _ & Hns & _).
    destruct Hwf as (Hg & Hids & Hent & Hstar).
    split_and!; simpl; [done..| |].
    + intros k' e2 [[<- <-]|[_ He2]]%lookup_insert_Some; [|by apply Hent].
      rewrite Hkey, Hns. by apply Hent.
    + rewrite lookup_insert_ne; [done|]. intros Heq. by rewrite Heq, Hstar in He.
Qed.

Lemma wf_Delete (k : string) (p : PubSub) : wf p → wf (Delete k p).1.2.
Proof.
  intros Hwf. destruct (m p !! k) as [e|] eqn:He.
  - rewrite (Delete_present _ _ _ He). simpl.
    destruct Hwf as (Hg & Hids & Hent & Hstar).
    split_and!; simpl; [done..| |].
    + intros k' e' [_ ?]%lookup_delete_Some. by apply Hent.
    + apply lookup_delete_None. by right.
  - by rewrite (proj1 (Delete_none k p He)).
Qed.

Lemma wf_Close (p : PubSub) : wf p → wf (Close p).1.2.
Proof.
  intros (Hg & Hids & Hent & Hstar). rewrite Close_spec. simpl.
  split_and!; simpl; [done..| |done].
  intros k e He. by destruct (lookup_empty_Some (M:=gmap string) k e).
Qed.

Lemma wf_exec (c : call) (p : PubSub) : wf p → wf (exec c p).
Proof.
  destruct c; simpl.
  - by rewrite (proj1 (Get_state k p)).
  - apply wf_Put.
  - apply wf_Delete.
  - apply wf_Sub.
  - apply wf_Unsub.
  - apply wf_Close.
Qed.

Lemma reachable_wf (p : PubSub) : reachable p → wf p.
Proof. induction 1; auto using wf_New, wf_exec. Qed.

Lemma fan_out_local_New : fan_out_local New.
Proof. intros sk fn Hsk. by destruct (lookup_empty_Some (M:=gmap string) sk fn). Qed.

Lemma fan_out_local_Put (k : string) (val : T) (p : PubSub) :
  wf p → fan_out_local p → fan_out_local (Put k val p).1.2.
Proof.
  intros Hwf Hfan. destruct (decide (k = "*")) as [->|Hk]; [done|].
  destruct (serves_or_not k p) as [Hserves|[Hnone Hi]];
    [|by rewrite Put_thrown].
  rewrite Put_eq by done. cbn [fst snd].
  intros sk fn Hsk k' e Hk' He. simpl in Hsk, He.
  apply lookup_insert_Some in He as [[<- <-]|[_ He]]; [|by eapply Hfan].
  simpl. by apply the_entry_forwarded.
Qed.

Lemma fan_out_local_Sub (k : string) (fn : Fn) (p : PubSub) :
  wf p → fan_out_local p → fan_out_local (Sub k fn p).1.2.
Proof.
  intros Hwf Hfan. destruct (decide (k = "*")) as [->|Hk].
  - rewrite Sub_wildcard. cbn [fst snd].
    destruct (sub_spec fn p) as (_ & Hs & Hm).
    intros sk fn' Hsk k' e Hk' He.
    rewrite Hs in Hsk. simpl in Hsk. rewrite Hm in He.
    apply fmap_Some in He as (e0 & He0 & ->). simpl.
    apply lookup_insert_Some in Hsk as [[<- <-]|[Hne Hsk]].
    + by rewrite lookup_insert_eq.
    + rewrite lookup_insert_ne by done. by eapply Hfan.
  - destruct (serves_or_not k p) as [Hserves|[Hnone Hi]];
      [|by rewrite Sub_thrown].
    rewrite Sub_eq by done. cbn [fst snd].
    intros sk fn' Hsk k' e Hk' He. simpl in Hsk, He.
    apply lookup_insert_Some in He as [[<- <-]|[_ He]]; [|by eapply Hfan].
    simpl. rewrite lookup_insert_ne.
    + by apply the_entry_forwarded.
    + intros Heq. destruct (the_entry_fields k p Hwf) as [_ Hns].
      apply (mint_not_global (localSubs (the_entry k p))); [congruence|].
      rewrite Heq. destruct Hwf as (_ & Hids & _). apply Hids. by eexists.
Qed.

Lemma fan_out_local_unsub (id : string) (p : PubSub) :
  fan_out_local p → fan_out_local (unsub id p).1.2.
Proof.
  intros Hfan. destruct (listeners (s p) !! id) as [fn|] eqn:Hid.
  - destruct (unsub_present id p) as (p' & -> & _ & _ & Hl & Hm); [by eexists|].
    cbn [fst snd]. intros sk fn' Hsk k e Hk He.
    rewrite Hl in Hsk. apply lookup_delete_Some in Hsk as [Hne Hsk].
    rewrite Hm in He. apply fmap_Some in He as (e0 & He0 & ->).
    destruct (Entry_Unsub_spec id e0) as (_ & _ & _ & _ & ->).
    rewrite lookup_delete_ne by done. by eapply Hfan.
  - by rewrite unsub_absent.
Qed.

Lemma fan_out_local_Unsub (id : string) (p : PubSub) :
  wf p → fan_out_local p → fan_out_local (Unsub id p).1.2.
Proof.
  intros Hwf Hfan.
  destruct (decide (split_first id = "global")) as [Hroute|Hroute].
  - rewrite Unsub_global by done. by apply fan_out_local_unsub.
  - destruct (m p !! split_first id) as [e0|] eqn:He0;
      [|by rewrite (proj1 (Unsub_none id p Hroute He0))].
    rewrite (Unsub_stored _ _ _ Hroute He0). cbn [fst snd].
    destruct (Entry_Unsub_spec id e0) as (_ & _ & _ & _ & Hl).
    intros sk fn Hsk k e Hk He. simpl in Hsk, He.
    apply lookup_insert_Some in He as [[<- <-]|[_ He]]; [|by eapply Hfan].
    rewrite Hl. rewrite lookup_delete_ne; [by eapply Hfan|].
    intros ->. apply Hroute. apply global_id_prefix.
    destruct Hwf as (_ & Hids & _). apply Hids. by eexists.
Qed.

Lemma fan_out_local_Delete (k : string) (p : PubSub) :
  fan_out_local p → fan_out_local (Delete k p).1.2.
Proof.
  intros Hfan. destruct (m p !! k) as [e|] eqn:He.
  - rewrite (Delete_present _ _ _ He). cbn [fst snd].
    intros sk fn Hsk k' e' Hk' He'. simpl in Hsk, He'.
    apply lookup_delete_Some in He' as [_ He']. by eapply Hfan.
  - by rewrite (proj1 (Delete_none k p He)).
Qed.

Lemma fan_out_local_Close (p : PubSub) : fan_out_local (Close p).1.2.
Proof.
  rewrite Close_spec. intros sk fn _ k e _ He.
  by destruct (lookup_empty_Some (M:=gmap string) k e).
Qed.

Lemma fan_out_local_exec (c : call) (p : PubSub) :
  wf p → fan_out_local p → fan_out_local (exec c p).
Proof.
  destruct c; simpl; intros Hwf Hfan.
  - by rewrite (proj1 (Get_state k p)).
  - by apply fan_out_local_Put.
  - by apply fan_out_local_Delete.
  - by apply fan_out_local_Sub.
  - by apply fan_out_local_Unsub.
  - apply fan_out_local_Close.
Qed.

Lemma reachable_fan_out_local (p : PubSub) : reachable p → fan_out_local p.
Proof.
  induction 1 as [|c p Hr IH]; [apply fan_out_local_New|].
  apply fan_out_local_exec; [by apply reachable_wf|done].
Qed.

Lemma reachable_run (cs : list call) (p : PubSub) :
  reachable p → reachable (run cs p).
Proof.
  revert p. induction cs as [|c cs IH]; intros p Hp; [done|].
  apply IH. by constructor.
Qed.

Lemma Entry_Unsub_remove (id : string) (e : Entry) :
  (Entry_Unsub id e).2 = remove_listener id e.
Proof.
  unfold Entry_Unsub, Subber_Unsub, remove_listener.
  destruct (listeners (localSubs e) !! id) as [fn|] eqn:Hid; simpl; [done|].
  rewrite delete_id by done. by destruct e as [? ? []].
Qed.

(** ** Where identifiers come from *)

Lemma mint_inj (ns : string) (n n' : N) :
  ns +:+ "_" +:+ pretty n = ns +:+ "_" +:+ pretty n' → n = n'.
Proof.
  intros Heq. apply last_sep_unique in Heq as [_ Heq];
    [|apply pretty_N_clean..].
  by apply (inj pretty).
Qed.

(** The identifiers of the entry a call works on. *)
Lemma the_entry_ids (k : string) (p : PubSub) (id : string) (fn : Fn) :
  ids_bounded p → k ≠ "global" →
  listeners (localSubs (the_entry k p)) !! id = Some fn →
  listeners (s p) !! id = Some fn ∨
  ∃ n : N, (n < counter (localSubs (the_entry k p)))%N ∧
           id = k +:+ "_" +:+ pretty n.
Proof.
  intros [_ Hent] Hk. destruct (m p !! k) as [e|] eqn:He.
  - rewrite (the_entry_present _ _ _ He). by apply Hent.
  - rewrite (the_entry_absent _ _ He).
    destruct (fresh_entry_fields k p) as (_ & _ & _ & _ & ->). by left.
Qed.

Lemma ids_bounded_New : ids_bounded New.
Proof.
  split.
  - intros id [fn Hid]. by destruct (lookup_empty_Some (M:=gmap string) id fn).
  - intros k e He. by destruct (lookup_empty_Some (M:=gmap string) k e).
Qed.

Lemma ids_bounded_Put (k : string) (val : T) (p : PubSub) :
  ids_bounded p → ids_bounded (Put k val p).1.2.
Proof.
  intros Hb. destruct (decide (k = "*")) as [->|Hk]; [done|].
  destruct (serves_or_not k p) as [Hserves|[Hnone Hi]];
    [|by rewrite Put_thrown].
  rewrite Put_eq by done. cbn [fst snd]. split; [apply Hb|].
  intros k' e He Hk' id fn Hid. simpl in He |- *.
  apply lookup_insert_Some in He as [[<- <-]|[_ He]].
  - simpl in Hid |- *. by apply the_entry_ids.
  - by eapply (proj2 Hb).
Qed.

Lemma ids_bounded_Sub (k : string) (fn : Fn) (p : PubSub) :
  wf p → ids_bounded p → ids_bounded (Sub k fn p).1.2.
Proof.
  intros Hwf Hb. destruct (decide (k = "*")) as [->|Hk].
  - rewrite Sub_wildcard. cbn [fst snd].
    destruct (sub_spec fn p) as (_ & Hs & Hm).
    destruct Hwf as (Hg & _). destruct Hb as [Hglob Hent]. split.
    + intros id. rewrite Hs. simpl.
      intros [<-|[_ Hid]]%lookup_insert_is_Some.
      * exists (counter (s p)). split; [lia|]. unfold mint. by rewrite Hg.
      * destruct (Hglob id Hid) as (n & Hn & ->). exists n. split; [lia|done].
    + intros k e He Hk id fn' Hid. rewrite Hm in He.
      apply fmap_Some in He as (e0 & He0 & ->). rewrite Hs.
      simpl in Hid |- *.
      apply lookup_insert_Some in Hid as [[<- <-]|[Hne Hid]].
      * left. by rewrite lookup_insert_eq.
      * rewrite lookup_insert_ne by done. by eapply Hent.
  - destruct (serves_or_not k p) as [Hserves|[Hnone Hi]];
      [|by rewrite Sub_thrown].
    rewrite Sub_eq by done. cbn [fst snd]. split; [apply Hb|].
    destruct (the_entry_fields k p Hwf) as [_ Hns].
    intros k' e He Hk' id fn' Hid. simpl in He |- *.
    apply lookup_insert_Some in He as [[<- <-]|[_ He]];
      [|by eapply (proj2 Hb)].
    simpl in Hid |- *.
    apply lookup_insert_Some in Hid as [[<- <-]|[_ Hid]].
    + right. exists (counter (localSubs (the_entry k p))).
      split; [lia|]. unfold mint. by rewrite Hns.
    + destruct (the_entry_ids k p id fn' Hb Hk' Hid) as [?|(n & Hn & ->)];
        [by left|].
      right. exists n. split; [lia|done].
Qed.

Lemma ids_bounded_unsub (id : string) (p : PubSub) :
  ids_bounded p → ids_bounded (unsub id p).1.2.
Proof.
  intros [Hglob Hent]. destruct (listeners (s p) !! id) as [fn|] eqn:Hid.
  - destruct (unsub_present id p) as (p' & -> & _ & Hc & Hl & Hm); [by eexists|].
    cbn [fst snd]. split.
    + intros id'. rewrite Hl, Hc. intros [_ ?]%lookup_delete_is_Some.
      by apply Hglob.
    + intros k e He Hk id' fn' Hid'. rewrite Hm in He.
      apply fmap_Some in He as (e0 & He0 & ->).
      rewrite Entry_Unsub_remove in Hid' |- *. simpl in Hid' |- *.
      apply lookup_delete_Some in Hid' as [Hne Hid'].
      rewrite Hl, lookup_delete_ne by done. by eapply Hent.
  - by rewrite unsub_absent.
Qed.

Lemma ids_bounded_Unsub (id : string) (p : PubSub) :
  ids_bounded p → ids_bounded (Unsub id p).1.2.
Proof.
  intros Hb. destruct (decide (split_first id = "global")) as [Hroute|Hroute].
  - rewrite Unsub_global by done. by apply ids_bounded_unsub.
  - destruct (m p !! split_first id) as [e0|] eqn:He0;
      [|by rewrite (proj1 (Unsub_none id p Hroute He0))].
    rewrite (Unsub_stored _ _ _ Hroute He0). cbn [fst snd].
    rewrite Entry_Unsub_remove. split; [apply Hb|].
    intros k e He Hk id' fn' Hid'. simpl in He |- *.
    apply lookup_insert_Some in He as [[<- <-]|[_ He]];
      [|by eapply (proj2 Hb)].
    simpl in Hid' |- *. apply lookup_delete_Some in Hid' as [_ Hid'].
    by eapply (proj2 Hb).
Qed.

Lemma ids_bounded_Delete (k : string) (p : PubSub) :
  ids_bounded p → ids_bounded (Delete k p).1.2.
Proof.
  intros Hb. destruct (m p !! k) as [e|] eqn:He.
  - rewrite (Delete_present _ _ _ He). cbn [fst snd]. split; [apply Hb|].
    intros k' e' He' Hk'. simpl in He' |- *.
    apply lookup_delete_Some in He' as [_ He']. by eapply (proj2 Hb).
  - by rewrite (proj1 (Delete_none k p He)).
Qed.

Lemma ids_bounded_Close (p : PubSub) :
  ids_bounded p → ids_bounded (Close p).1.2.
Proof.
  intros Hb. rewrite Close_spec. cbn [fst snd]. split; [apply Hb|].
  intros k e He. by destruct (lookup_empty_Some (M:=gmap string) k e).
Qed.

Lemma ids_bounded_exec (c : call) (p : PubSub) :
  wf p → ids_bounded p → ids_bounded (exec c p).
Proof.
  destruct c; simpl; intros Hwf Hb.
  - by rewrite (proj1 (Get_state k p)).
  - by apply ids_bounded_Put.
  - by apply ids_bounded_Delete.
  - by apply ids_bounded_Sub.
  - by apply ids_bounded_Unsub.
  - by apply ids_bounded_Close.
Qed.

Lemma reachable_ids_bounded (p : PubSub) : reachable p → ids_bounded p.
Proof.
  induction 1 as [|c p Hr IH]; [apply ids_bounded_New|].
  apply ids_bounded_exec; [by apply reachable_wf|done].
Qed.

(** In a reachable store the identifier a registry would mint next is not in
    use: neither the global one in the global registry or in an entry other
    than ["global"], nor the one of such an entry in that entry. *)
Lemma mint_global_fresh (p : PubSub) :
  wf p → ids_bounded p →
  listeners (s p) !! mint (s p) = None ∧
  ∀ k e, m p !! k = Some e → k ≠ "global" →
         listeners (localSubs e) !! mint (s p) = None.
Proof.
  intros (Hg & _ & Hent & _) [Hglob Hloc].
  assert (listeners (s p) !! mint (s p) = None) as Hfresh.
  { destruct (listeners (s p) !! mint (s p)) as [fn|] eqn:Hl; [|done].
    destruct (Hglob (mint (s p))) as (n & Hn & Heq); [by eexists|].
    unfold mint in Heq. rewrite Hg in Heq. apply mint_inj in Heq. lia. }
  split; [done|]. intros k e He Hk.
  destruct (listeners (localSubs e) !! mint (s p)) as [fn|] eqn:Hl; [|done].
  destruct (Hloc k e He Hk _ _ Hl) as [Hin|(n & _ & Heq)]; [congruence|].
  unfold mint in Heq. rewrite Hg in Heq.
  apply last_sep_unique in Heq as [Heq _]; [congruence|apply pretty_N_clean..].
Qed.

Lemma mint_local_fresh (k : string) (p : PubSub) :
  wf p → ids_bounded p → k ≠ "global" →
  listeners (localSubs (the_entry k p))
    !! mint (localSubs (the_entry k p)) = None.
Proof.
  intros Hwf Hb Hk. destruct (the_entry_fields k p Hwf) as [_ Hns].
  set (e0 := the_entry k p) in *.
  destruct (listeners (localSubs e0) !! mint (localSubs e0)) as [fn|] eqn:Hl;
    [|done].
  destruct (the_entry_ids k p _ _ Hb Hk Hl) as [Hin|(n & Hn & Heq)].
  - destruct Hwf as (_ & Hids & _).
    destruct (mint_not_global (localSubs e0)); [congruence|].
    apply Hids. by eexists.
  - fold e0 in Hn. unfold mint in Heq. rewrite Hns in Heq.
    apply mint_inj in Heq. lia.
Qed.
(** ** The claims *)

(** C2. For an identifier whose routing prefix is ["global"]: when it is in
    the global registry, [Unsub] removes it there and from the listeners of
    every entry, and returns [true]; when it is not, [Unsub] logs, returns
    [false] and changes nothing. *)
Theorem C2_global_unsub (id : string) (p : PubSub) :
  split_first id = "global" →
  (is_Some (listeners (s p) !! id) →
     Unsub id p
     = (Returned true,
        {| m := remove_listener id <$> m p;
           s := {| namespace := namespace (s p); counter := counter (s p);
                   listeners := delete id (listeners (s p)) |} |},
        [])) ∧
  (listeners (s p) !! id = None →
     Unsub id p
     = (Returned false, p, [ConsoleError "Could not unsub key!" id])).
Proof.
  intros Hroute. rewrite Unsub_global by done. split.
  - intros Hid.
    destruct (unsub_present id p Hid) as (p' & -> & Hns & Hc & Hl & Hm).
    do 2 f_equal. destruct p' as [m' [ns' c' l']]. simpl in *. subst.
    f_equal. apply map_eq. intros k.
    rewrite Hm, lookup_fmap. destruct (m p !! k); simpl; [|done].
    by rewrite Entry_Unsub_remove.
  - apply unsub_absent.
Qed.

(** C4 (as amended). For every key other than the wildcard that is not a
    name inherited from [Object.prototype], every value and every store,
    [Get] after [Put] returns the value put. *)
Theorem C4_get_put (k : string) (val : T) (p : PubSub) :
  k ≠ "*" → inherited k = false →
  (Put k val p).1.1 = Returned tt ∧
  (Get k (Put k val p).1.2).1.1 = Returned (Some val).
Proof.
  intros Hk Hi. rewrite Put_eq by (try done; by right). cbn [fst snd].
  split; [done|]. unfold Get, index. simpl. by rewrite lookup_insert_eq.
Qed.

(** A call that is neither a [Put] nor a [Sub] on a key leaves the key
    without an entry. *)
Lemma exec_no_create (k : string) (c : call) (p : PubSub) :
  ¬ creates k c → m p !! k = None → m (exec c p) !! k = None.
Proof.
  intros Hc Hk. destruct c as [k'|k' val|k'|k' fn|id|]; simpl in *.
  - by rewrite (proj1 (Get_state k' p)).
  - destruct (decide (k' = "*")) as [->|Hk']; [done|].
    destruct (serves_or_not k' p) as [Hserves|[Hnone Hi]];
      [|by rewrite Put_thrown].
    rewrite Put_eq by done. simpl. by rewrite lookup_insert_ne.
  - destruct (m p !! k') as [e|] eqn:He.
    + rewrite (Delete_present _ _ _ He). simpl.
      apply lookup_delete_None. by right.
    + by rewrite (proj1 (Delete_none k' p He)).
  - destruct (decide (k' = "*")) as [->|Hk'].
    + rewrite Sub_wildcard. cbn [fst snd].
      destruct (sub_spec fn p) as (_ & _ & Hm). by rewrite Hm, Hk.
    + destruct (serves_or_not k' p) as [Hserves|[Hnone Hi]];
        [|by rewrite Sub_thrown].
      rewrite Sub_eq by done. simpl. by rewrite lookup_insert_ne.
  - destruct (decide (split_first id = "global")) as [Hroute|Hroute].
    + rewrite Unsub_global by done.
      destruct (listeners (s p) !! id) as [fn|] eqn:Hid.
      * destruct (unsub_present id p) as (p' & -> & _ & _ & _ & Hm);
          [by eexists|]. cbn [fst snd]. by rewrite Hm, Hk.
      * by rewrite unsub_absent.
    + destruct (m p !! split_first id) as [e|] eqn:He;
        [|by rewrite (proj1 (Unsub_none id p Hroute He))].
      rewrite (Unsub_stored _ _ _ Hroute He). simpl.
      rewrite lookup_insert_ne; [done|]. intros Heq. congruence.
  - by rewrite Close_spec.
Qed.

Lemma run_no_create (k : string) (cs : list call) (p : PubSub) :
  Forall (λ c, ¬ creates k c) cs → m p !! k = None → m (run cs p) !! k = None.
Proof.
  revert p. induction cs as [|c cs IH]; intros p Hcs Hk; [done|].
  apply Forall_cons in Hcs as [Hc Hcs].
  apply IH; [done|]. by apply exec_no_create.
Qed.

(** C5. No reachable store has an entry under the wildcard, so [Get] of the
    wildcard is [null]; [Put] on the wildcard logs an error and changes
    nothing; [Sub] on the wildcard is the global subscription, which
    registers the listener in the global registry and creates no entry. *)
Theorem C5_wildcard_reserved (p : PubSub) :
  reachable p →
  m p !! "*" = None ∧
  (Get "*" p).1.1 = Returned None ∧
  (∀ val : T,
     Put "*" val p = (Returned tt, p, [ConsoleError "invalid key" "*"])) ∧
  (∀ fn : Fn,
     Sub "*" fn p = (Returned (sub fn p).1, (sub fn p).2, []) ∧
     listeners (s (sub fn p).2) !! (sub fn p).1 = Some fn ∧
     dom (m (sub fn p).2) = dom (m p)).
Proof.
  intros Hr. destruct (reachable_wf p Hr) as (_ & _ & _ & Hstar).
  split_and!; [done|by rewrite Get_missing|done|].
  intros fn. split_and!; [apply Sub_wildcard| |].
  - destruct (sub_spec fn p) as (-> & -> & _). simpl.
    by rewrite lookup_insert_eq.
  - destruct (sub_spec fn p) as (_ & _ & Hm). apply set_eq. intros k.
    rewrite !elem_of_dom, Hm. by rewrite fmap_is_Some.
Qed.

(** C7. [Close] closes every entry there is, each of them calling its
    listeners with [null], and leaves no entry; the global registry is what
    it was. *)
Theorem C7_close_frame (p : PubSub) :
  Close p
  = (Returned tt, {| m := ∅; s := s p |},
     concat ((λ ke, (Entry_Close ke.2).2) <$> map_to_list (m p))) ∧
  m (Close p).1.2 = ∅ ∧
  s (Close p).1.2 = s p.
Proof. by rewrite Close_spec. Qed.

(** C10. [Get] leaves the store it was given as it is and produces no event,
    however it ends: no entry is created, no value, listener or global
    subscription changes.  [Put] and [Sub] on a key other than the wildcard
    and the inherited names, by contrast, create the entry when it is
    missing. *)
Theorem C10_get_pure (k : string) (p : PubSub) :
  (Get k p).1.2 = p ∧
  (Get k p).2 = [] ∧
  exec (CallGet k) p = p ∧
  (k ≠ "*" → inherited k = false → m p !! k = None →
   ∀ (val : T) (fn : Fn),
     is_Some (m (Put k val p).1.2 !! k) ∧ is_Some (m (Sub k fn p).1.2 !! k)).
Proof.
  destruct (Get_state k p) as [Hs He]. split_and!; [done..|].
  intros Hk Hi Hnone val fn.
  rewrite Put_eq, Sub_eq by (try done; by right). simpl.
  rewrite !lookup_insert_eq. by split.
Qed.

(** C9 (as amended). For a key [k] with an underscore, neither [k] nor the
    part of [k] before its first underscore being a name inherited from
    [Object.prototype], the identifier returned by [Sub] is [k], an
    underscore and a number, and its routing prefix is that first part of
    [k], which is not [k].  When the prefix is not ["global"], [Unsub] goes
    to the entry of that name; when it is ["global"], [Unsub] goes to the
    global registry, which does not know the identifier, logs and returns
    [false].  Either way, when there is no entry of that name, [Unsub]
    returns [false], the store keeps the listener under the identifier, and
    a later [Put] on [k] calls it. *)
Theorem C9_underscore_key (k : string) (fn : Fn) (p : PubSub) :
  reachable p → has_underscore k = true →
  inherited k = false → inherited (split_first k) = false →
  ∃ id : string,
    (Sub k fn p).1.1 = Returned id ∧
    let p1 := (Sub k fn p).1.2 in
    (∃ n : N, id = k +:+ "_" +:+ pretty n) ∧
    split_first id = split_first k ∧
    split_first k ≠ k ∧
    (split_first k ≠ "global" →
       Unsub id p1
       = match m p1 !! split_first k with
         | None => (Returned false, p1, [])
         | Some e =>
             (Returned (Entry_Unsub id e).1,
              {| m := <[split_first k := (Entry_Unsub id e).2]> (m p1);
                 s := s p1 |},
              [])
         end) ∧
    (split_first k = "global" →
       Unsub id p1
       = (Returned false, p1, [ConsoleError "Could not unsub key!" id])) ∧
    (m p1 !! split_first k = None →
       (Unsub id p1).1.1 = Returned false ∧
       (Unsub id p1).1.2 = p1 ∧
       (∃ e, m p1 !! k = Some e ∧ listeners (localSubs e) !! id = Some fn) ∧
       ∀ val : T, Notify fn (Some val) k ∈ (Put k val (Unsub id p1).1.2).2).
Proof.
  intros Hr Hus Hi Hip.
  pose proof (reachable_wf p Hr) as Hwf.
  assert (k ≠ "*") as Hk by (intros ->; discriminate).
  rewrite Sub_eq by (try done; by right). cbn [fst snd].
  destruct (the_entry_fields k p Hwf) as [Hkey Hns].
  set (e0 := the_entry k p) in *.
  set (id := mint (localSubs e0)).
  set (p1 := {| m := <[k := (Entry_Sub fn None e0).2]> (m p); s := s p |}).
  exists id. split; [done|]. cbv zeta.
  assert (id = k +:+ "_" +:+ pretty (counter (localSubs e0))) as Hid
    by (subst id; unfold mint; by rewrite Hns).
  assert (split_first id = split_first k) as Hpre
    by (rewrite Hid; by apply split_first_app).
  assert (split_first k ≠ k) as Hne.
  { intros Heq. pose proof (split_first_clean k) as Hc. congruence. }
  assert (split_first k ≠ "global" →
          Unsub id p1
          = match m p1 !! split_first k with
            | None => (Returned false, p1, [])
            | Some e =>
                (Returned (Entry_Unsub id e).1,
                 {| m := <[split_first k := (Entry_Unsub id e).2]> (m p1);
                    s := s p1 |},
                 [])
            end) as Hlocal.
  { intros Hroute. rewrite <- Hpre in Hroute |- *.
    destruct (m p1 !! split_first id) as [e|] eqn:He.
    - by apply Unsub_stored.
    - apply Unsub_missing; [done..|]. by rewrite Hpre. }
  assert (split_first k = "global" →
          Unsub id p1
          = (Returned false, p1, [ConsoleError "Could not unsub key!" id]))
    as Hglobal.
  { intros Hroute. rewrite Unsub_global by (by rewrite Hpre).
    apply unsub_absent. simpl.
    destruct (listeners (s p) !! id) as [fn'|] eqn:Hl; [|done].
    destruct Hwf as (_ & Hids & _).
    destruct (Hids id) as [n Hn]; [by eexists|].
    rewrite Hid in Hn.
    apply last_sep_unique in Hn as [-> _]; [done|apply pretty_N_clean..]. }
  split_and!; [by eexists|done..|].
  intros Hnone.
  assert (Unsub id p1 = (Returned false, p1, []) ∨
          Unsub id p1
          = (Returned false, p1, [ConsoleError "Could not unsub key!" id]))
    as Hun.
  { destruct (decide (split_first k = "global")) as [Hg|Hg].
    - right. by apply Hglobal.
    - left. rewrite Hlocal by done. by rewrite Hnone. }
  assert (m p1 !! k = Some (Entry_Sub fn None e0).2) as He
    by (subst p1; simpl; by rewrite lookup_insert_eq).
  assert (listeners (localSubs (Entry_Sub fn None e0).2) !! id = Some fn) as Hl
    by (simpl; by rewrite lookup_insert_eq).
  assert ((Unsub id p1).1.2 = p1) as Hsame by (by destruct Hun as [-> | ->]).
  split_and!.
  - by destruct Hun as [-> | ->].
  - done.
  - by eexists.
  - intros val. rewrite Hsame, Put_eq by (try done; left; by eexists).
    cbn [snd]. rewrite (the_entry_present _ _ _ He).
    rewrite <- Hkey.
    change (key e0) with (key (Entry_Sub fn None e0).2).
    by eapply notifications_elem.
Qed.
(** ** Further properties of the methods *)

(** X1. [createEntry] on a key with an entry returns that entry and changes
    nothing.  On a key without one that is not an inherited name it stores a
    new entry under the key: no value, a registry named after the key, and
    the global listeners under their global identifiers as its only
    listeners.  On an inherited name without an entry it returns the
    inherited value and stores nothing.  A second call returns what the
    first returned. *)
Theorem X1_createEntry (k : string) (p : PubSub) :
  (∀ e, m p !! k = Some e → createEntry k p = (AnEntry e, p)) ∧
  (m p !! k = None → inherited k = false →
     createEntry k p
     = (AnEntry (fresh_entry k p),
        {| m := <[k := fresh_entry k p]> (m p); s := s p |}) ∧
     key (fresh_entry k p) = k ∧
     value (fresh_entry k p) = None ∧
     namespace (localSubs (fresh_entry k p)) = k ∧
     listeners (localSubs (fresh_entry k p)) = listeners (s p)) ∧
  (m p !! k = None → inherited k = true → createEntry k p = (Foreign, p)) ∧
  createEntry k (createEntry k p).2
  = ((createEntry k p).1, (createEntry k p).2).
Proof.
  split_and!.
  - intros e. apply createEntry_present.
  - intros Hk Hi. split; [by apply createEntry_absent|].
    destruct (fresh_entry_fields k p) as (-> & -> & -> & _ & ->). done.
  - apply createEntry_inherited.
  - destruct (m p !! k) as [e|] eqn:Hk.
    + rewrite (createEntry_present _ _ _ Hk). cbn [fst snd].
      by apply createEntry_present.
    + destruct (inherited k) eqn:Hi.
      * rewrite (createEntry_inherited _ _ Hk Hi). cbn [fst snd].
        by apply createEntry_inherited.
      * rewrite (createEntry_absent _ _ Hk Hi). cbn [fst snd].
        apply createEntry_present. simpl. apply lookup_insert_eq.
Qed.

(** X2. [forEach] runs its callback once on every entry, under the entry's
    key, and on nothing else: no key is added or lost, and the global
    registry is not touched. *)
Theorem X2_forEach (f : string → Entry → Entry) (p : PubSub) :
  m (forEach f p) = map_imap (λ k e, Some (f k e)) (m p) ∧
  s (forEach f p) = s p ∧
  dom (m (forEach f p)) = dom (m p).
Proof.
  destruct (forEach_spec f p) as [Hs Hm]. split_and!; [|done|].
  - apply map_eq. intros k. rewrite Hm, map_lookup_imap.
    by destruct (m p !! k).
  - apply set_eq. intros k. rewrite !elem_of_dom, Hm. by rewrite fmap_is_Some.
Qed.

(** X3. [Put] on a key other than the wildcard changes the value of that key
    and nothing else: the other entries and the global registry are as
    before, and an entry already there keeps its key and its listeners.
    When the key is not an inherited name, [Put] returns and the keys are
    those of before and the key put; on an inherited name without an entry
    it throws and changes nothing. *)
Theorem X3_put_frame (k : string) (val : T) (p : PubSub) :
  k ≠ "*" →
  s (Put k val p).1.2 = s p ∧
  (∀ k', k' ≠ k → m (Put k val p).1.2 !! k' = m p !! k') ∧
  (∀ e, m p !! k = Some e →
        m (Put k val p).1.2 !! k
        = Some {| key := key e; value := Some val; localSubs := localSubs e |}) ∧
  (inherited k = false →
     (Put k val p).1.1 = Returned tt ∧
     dom (m (Put k val p).1.2) = {[k]} ∪ dom (m p)) ∧
  (m p !! k = None → inherited k = true → Put k val p = (Thrown, p, [])).
Proof.
  intros Hk. destruct (serves_or_not k p) as [Hserves|[Hnone Hi]].
  - rewrite Put_eq by done. cbn [fst snd]. simpl. split_and!.
    + done.
    + intros k' Hne. by rewrite lookup_insert_ne.
    + intros e He. rewrite (the_entry_present _ _ _ He).
      by rewrite lookup_insert_eq.
    + intros _. by rewrite dom_insert_L.
    + intros Hnone Hi. destruct Hserves as [[e He]|Hi']; congruence.
  - rewrite Put_thrown by done. cbn [fst snd].
    split_and!; [done..| | |done]; [|congruence]. intros e He. congruence.
Qed.

(** X4. In a reachable store, [Put] on a key other than the wildcard that
    has an entry, or is not an inherited name, calls each listener of the
    key's entry once with the value and the key, and writes nothing to the
    console.  On a key without an entry these are the global listeners; on a
    key other than ["global"] they include every global listener. *)
Theorem X4_put_delivery (k : string) (val : T) (p : PubSub) :
  reachable p → k ≠ "*" →
  (m p !! k = None → inherited k = false →
     (Put k val p).2
     = (λ q, Notify q.2 (Some val) k) <$> map_to_list (listeners (s p))) ∧
  (∀ e, m p !! k = Some e →
     (Put k val p).2
     = (λ q, Notify q.2 (Some val) k)
         <$> map_to_list (listeners (localSubs e))) ∧
  (k ≠ "global" → inherited k = false →
   ∀ sk fn, listeners (s p) !! sk = Some fn →
     Notify fn (Some val) k ∈ (Put k val p).2).
Proof.
  intros Hr Hk. pose proof (reachable_wf p Hr) as Hwf.
  destruct (the_entry_fields k p Hwf) as [Hkey _].
  split_and!.
  - intros Hnone Hi. rewrite Put_eq by (try done; by right). cbn [snd].
    rewrite notifications_fmap, Hkey, (the_entry_absent _ _ Hnone).
    by destruct (fresh_entry_fields k p) as (_ & _ & _ & _ & ->).
  - intros e He. rewrite Put_eq by (try done; left; by eexists). cbn [snd].
    by rewrite notifications_fmap, Hkey, (the_entry_present _ _ _ He).
  - intros Hg Hi sk fn Hsk. rewrite Put_eq by (try done; by right). cbn [snd].
    rewrite <- Hkey at 1. eapply notifications_elem.
    apply the_entry_forwarded; [by apply reachable_fan_out_local|done..].
Qed.

Lemma Delete_post (k : string) (p : PubSub) :
  m (Delete k p).1.2 !! k = None ∧
  s (Delete k p).1.2 = s p ∧
  ∀ k', k' ≠ k → m (Delete k p).1.2 !! k' = m p !! k'.
Proof.
  destruct (m p !! k) as [e|] eqn:He.
  - rewrite (Delete_present _ _ _ He). simpl.
    rewrite lookup_delete_eq. split_and!; [done..|].
    intros k' Hne. by rewrite lookup_delete_ne.
  - by rewrite (proj1 (Delete_none k p He)).
Qed.

(** X5. After [Delete] the key has no entry, and the other entries and the
    global registry are as before.  When the key is not an inherited name,
    [Get] on it is then [null] and a second [Delete] returns [false], calls
    no one and changes nothing. *)
Theorem X5_delete_frame (k : string) (p : PubSub) :
  m (Delete k p).1.2 !! k = None ∧
  s (Delete k p).1.2 = s p ∧
  (∀ k', k' ≠ k → m (Delete k p).1.2 !! k' = m p !! k') ∧
  (inherited k = false →
     Delete k (Delete k p).1.2 = (Returned false, (Delete k p).1.2, []) ∧
     (Get k (Delete k p).1.2).1.1 = Returned None).
Proof.
  destruct (Delete_post k p) as (Hk & Hs & Hm). split_and!; [done..|].
  intros Hi. split; [by apply Delete_absent|]. by rewrite Get_missing.
Qed.

Lemma Sub_fresh_id (k : string) (fn : Fn) (p : PubSub) :
  k ≠ "*" → inherited k = false → m p !! k = None →
  (Sub k fn p).1.1 = Returned (k +:+ "_" +:+ pretty 0%N).
Proof.
  intros Hk Hi Hnone. rewrite Sub_eq by (try done; by right). cbn [fst].
  rewrite (the_entry_absent _ _ Hnone). unfold mint.
  by destruct (fresh_entry_fields k p) as (_ & _ & -> & -> & _).
Qed.

(** X6. For a key other than the wildcard and the inherited names, [Delete]
    forgets the listeners of the key: a [Put] on the key afterwards calls
    the global listeners and no one else.  It also forgets the numbering:
    on a key that had no entry, [Sub], [Delete], [Sub] returns the same
    identifier twice. *)
Theorem X6_delete_forgets (k : string) (fn fn' : Fn) (val : T) (p : PubSub) :
  k ≠ "*" → inherited k = false →
  (Put k val (Delete k p).1.2).2
  = (λ q, Notify q.2 (Some val) k) <$> map_to_list (listeners (s p)) ∧
  (m p !! k = None →
   ∃ id, (Sub k fn p).1.1 = Returned id ∧
         (Sub k fn' (Delete k (Sub k fn p).1.2).1.2).1.1 = Returned id).
Proof.
  intros Hk Hi. split.
  - destruct (Delete_post k p) as (Hnone & Hs & _).
    rewrite Put_eq by (try done; by right). cbn [snd].
    rewrite (the_entry_absent _ _ Hnone), notifications_fmap.
    destruct (fresh_entry_fields k (Delete k p).1.2) as (-> & _ & _ & _ & ->).
    by rewrite Hs.
  - intros Hnone. eexists. split; [by apply Sub_fresh_id|].
    apply Sub_fresh_id; [done..|]. apply Delete_post.
Qed.

Lemma Entry_Unsub_absent (id : string) (e : Entry) :
  listeners (localSubs e) !! id = None → Entry_Unsub id e = (false, e).
Proof.
  intros Hid. unfold Entry_Unsub, Subber_Unsub. rewrite Hid.
  by destruct e.
Qed.

Lemma Entry_Unsub_present (id : string) (e : Entry) :
  is_Some (listeners (localSubs e) !! id) →
  Entry_Unsub id e = (true, remove_listener id e).
Proof.
  intros [fn Hid]. unfold Entry_Unsub, Subber_Unsub. by rewrite Hid.
Qed.

Lemma Unsub_not_true_unchanged (id : string) (p : PubSub) :
  (Unsub id p).1.1 ≠ Returned true → (Unsub id p).1.2 = p.
Proof.
  destruct (decide (split_first id = "global")) as [Hroute|Hroute].
  - rewrite Unsub_global by done.
    destruct (listeners (s p) !! id) as [fn|] eqn:Hid.
    + destruct (unsub_present id p) as (p' & -> & _); [by eexists|]. done.
    + by rewrite unsub_absent.
  - destruct (m p !! split_first id) as [e|] eqn:He;
      [|intros _; by apply Unsub_none].
    rewrite (Unsub_stored _ _ _ Hroute He).
    destruct (listeners (localSubs e) !! id) as [fn|] eqn:Hid.
    + rewrite Entry_Unsub_present by (by eexists). done.
    + rewrite Entry_Unsub_absent by done. intros _. simpl.
      rewrite insert_id by done. apply store_eta.
Qed.

(** The result of [Unsub] on the store a first [Unsub] of the same
    identifier leaves. *)
Lemma Unsub_twice (id : string) (p : PubSub) :
  (Unsub id (Unsub id p).1.2).1.1 = Returned false ∨
  ((Unsub id (Unsub id p).1.2).1.1 = Thrown ∧
   inherited (split_first id) = true).
Proof.
  destruct (decide (split_first id = "global")) as [Hroute|Hroute].
  - left. rewrite !Unsub_global by done.
    destruct (listeners (s p) !! id) as [fn|] eqn:Hid.
    + destruct (unsub_present id p) as (p' & -> & _ & _ & Hl & _);
        [by eexists|]. cbn [fst snd].
      rewrite unsub_absent; [done|]. rewrite Hl. apply lookup_delete_eq.
    + rewrite (unsub_absent id p) by done. cbn [fst snd].
      by rewrite (unsub_absent id p).
  - destruct (m p !! split_first id) as [e|] eqn:He.
    + left. rewrite (Unsub_stored id p e Hroute He). cbn [fst snd].
      erewrite Unsub_stored; [|done|simpl; apply lookup_insert_eq].
      cbn [fst]. f_equal.
      destruct (Entry_Unsub_spec id (Entry_Unsub id e).2) as (-> & _).
      destruct (Entry_Unsub_spec id e) as (_ & _ & _ & _ & ->).
      rewrite lookup_delete_eq. apply bool_decide_eq_false_2. by intros [? ?].
    + rewrite (proj1 (Unsub_none id p Hroute He)).
      destruct (inherited (split_first id)) eqn:Hi.
      * right. by rewrite Unsub_thrown.
      * left. by rewrite Unsub_missing.
Qed.

(** X7. [Unsub] of the same identifier a second time never returns [true],
    whatever the store and the identifier: it returns [false], unless the
    routing prefix of the identifier is an inherited name, in which case it
    may throw instead. *)
Theorem X7_unsub_twice (id : string) (p : PubSub) :
  (Unsub id (Unsub id p).1.2).1.1 ≠ Returned true ∧
  (inherited (split_first id) = false →
   (Unsub id (Unsub id p).1.2).1.1 = Returned false).
Proof.
  destruct (Unsub_twice id p) as [Hres|[Hres Hi]]; rewrite Hres.
  - by split.
  - split; [done|]. congruence.
Qed.

(** X8. An [Unsub] that does not return [true] (it returns [false], or it
    throws) has changed nothing in the store. *)
Theorem X8_unsub_false_unchanged (id : string) (p : PubSub) :
  (Unsub id p).1.1 ≠ Returned true → (Unsub id p).1.2 = p.
Proof. apply Unsub_not_true_unchanged. Qed.

Lemma Get_result (k : string) (p : PubSub) :
  (Get k p).1.1
  = match m p !! k with
    | Some e => Returned (value e)
    | None => if inherited k then Thrown else Returned None
    end.
Proof.
  unfold Get, index. destruct (m p !! k); [done|]. by destruct (inherited k).
Qed.

(** X9. Subscribing and unsubscribing never change a value: [Get] on any key
    ends after [Sub] or [Unsub] as it ended before, also when [Sub] has
    created the entry of the key.  [Unsub] keeps the set of keys. *)
Theorem X9_subscriptions_keep_values (k k' id : string) (fn : Fn) (p : PubSub) :
  (Get k' (Sub k fn p).1.2).1.1 = (Get k' p).1.1 ∧
  (Get k' (Unsub id p).1.2).1.1 = (Get k' p).1.1 ∧
  dom (m (Unsub id p).1.2) = dom (m p).
Proof.
  rewrite !Get_result. split_and!.
  - destruct (decide (k = "*")) as [->|Hk].
    + rewrite Sub_wildcard. cbn [fst snd].
      destruct (sub_spec fn p) as (_ & _ & ->). by destruct (m p !! k').
    + destruct (serves_or_not k p) as [Hserves|[Hnone Hi]];
        [|by rewrite Sub_thrown].
      rewrite Sub_eq by done. cbn [fst snd]. simpl.
      destruct (decide (k = k')) as [<-|Hne]; [|by rewrite lookup_insert_ne].
      rewrite lookup_insert_eq. simpl.
      destruct (m p !! k) as [e|] eqn:He.
      * by rewrite (the_entry_present _ _ _ He).
      * rewrite (the_entry_absent _ _ He).
        destruct (fresh_entry_fields k p) as (_ & -> & _).
        destruct Hserves as [[e He'] | ->]; [congruence|done].
  - destruct (decide (split_first id = "global")) as [Hroute|Hroute].
    + rewrite Unsub_global by done.
      destruct (listeners (s p) !! id) as [fn0|] eqn:Hid.
      * destruct (unsub_present id p) as (p' & -> & _ & _ & _ & Hm);
          [by eexists|]. cbn [fst snd]. rewrite Hm.
        destruct (m p !! k') as [e|]; [|done]. simpl.
        by rewrite Entry_Unsub_remove.
      * by rewrite unsub_absent.
    + destruct (m p !! split_first id) as [e|] eqn:He;
        [|by rewrite (proj1 (Unsub_none id p Hroute He))].
      rewrite (Unsub_stored _ _ _ Hroute He), Entry_Unsub_remove.
      cbn [fst snd]. simpl.
      destruct (decide (split_first id = k')) as [<-|Hne];
        [|by rewrite lookup_insert_ne].
      by rewrite lookup_insert_eq, He.
  - destruct (decide (split_first id = "global")) as [Hroute|Hroute].
    + rewrite Unsub_global by done.
      destruct (listeners (s p) !! id) as [fn0|] eqn:Hid.
      * destruct (unsub_present id p) as (p' & -> & _ & _ & _ & Hm);
          [by eexists|]. cbn [fst snd]. apply set_eq. intros k0.
        rewrite !elem_of_dom, Hm. by rewrite fmap_is_Some.
      * by rewrite unsub_absent.
    + destruct (m p !! split_first id) as [e|] eqn:He;
        [|by rewrite (proj1 (Unsub_none id p Hroute He))].
      rewrite (Unsub_stored _ _ _ Hroute He). cbn [fst snd]. simpl.
      rewrite dom_insert_L. apply subseteq_union_1_L.
      apply singleton_subseteq_l. by eapply elem_of_dom_2.
Qed.
Lemma notifications_same (val : option T) (e e' : Entry) :
  key e = key e' → listeners (localSubs e) = listeners (localSubs e') →
  notifications val e = notifications val e'.
Proof. intros Hk Hl. by rewrite !notifications_fmap, Hk, Hl. Qed.

Lemma sub_unsub_key (k : string) (fn : Fn) (p : PubSub) :
  reachable p → has_underscore k = false → k ≠ "global" → k ≠ "*" →
  inherited k = false →
  ∃ id : string,
    (Sub k fn p).1.1 = Returned id ∧
    let p2 := (Unsub id (Sub k fn p).1.2).1.2 in
    split_first id = k ∧
    (Unsub id (Sub k fn p).1.2).1.1 = Returned true ∧
    (∃ e', m p2 !! k = Some e' ∧
           listeners (localSubs e') = listeners (localSubs (the_entry k p))) ∧
    s p2 = s p ∧
    (∀ k', k' ≠ k → m p2 !! k' = m p !! k') ∧
    (∀ val : T, (Put k val p2).2 = (Put k val p).2).
Proof.
  intros Hr Hclean Hg Hk Hi.
  pose proof (reachable_wf p Hr) as Hwf.
  pose proof (reachable_ids_bounded p Hr) as Hb.
  pose proof (mint_local_fresh k p Hwf Hb Hg) as Hfresh.
  destruct (the_entry_fields k p Hwf) as [Hkey Hns].
  rewrite Sub_eq by (try done; by right). cbn [fst snd].
  set (e0 := the_entry k p) in *.
  set (id := mint (localSubs e0)) in *.
  exists id. split; [done|]. cbv zeta.
  assert (split_first id = k) as Hpre.
  { subst id. unfold mint. rewrite Hns. by apply split_first_sep. }
  assert (Unsub id {| m := <[k := (Entry_Sub fn None e0).2]> (m p); s := s p |}
          = (Returned true,
             {| m := <[k := remove_listener id (Entry_Sub fn None e0).2]> (m p);
                s := s p |}, [])) as Hun.
  { erewrite Unsub_stored;
      [|by rewrite Hpre|rewrite Hpre; simpl; apply lookup_insert_eq].
    rewrite Hpre.
    rewrite Entry_Unsub_present by (simpl; rewrite lookup_insert_eq; by eexists).
    simpl. by rewrite insert_insert_eq. }
  rewrite Hun. cbn [fst snd].
  assert (listeners (localSubs (remove_listener id (Entry_Sub fn None e0).2))
          = listeners (localSubs e0)) as Hl
    by (simpl; by rewrite delete_insert_id).
  split_and!; [done..| | | |].
  - eexists. split; [apply lookup_insert_eq|done].
  - done.
  - intros k' Hne. simpl. by rewrite lookup_insert_ne.
  - intros val. rewrite !Put_eq by (try done; by right). cbn [snd].
    erewrite (the_entry_present k {| m := <[k := _]> (m p); s := s p |})
      by apply lookup_insert_eq.
    by apply notifications_same.
Qed.

(** X10. Round trip on a key: in a reachable store, for a key without
    underscore other than ["global"], the wildcard and the inherited names,
    [Sub] returns an identifier that routes back to the key, [Unsub] of it
    returns [true], and the listeners of the key are afterwards those of
    before the [Sub]: a later [Put] calls exactly whom it would have called.
    The global registry and the other entries are as before. *)
Theorem X10_sub_unsub_key (k : string) (fn : Fn) (p : PubSub) :
  reachable p → has_underscore k = false → k ≠ "global" → k ≠ "*" →
  inherited k = false →
  ∃ id : string,
    (Sub k fn p).1.1 = Returned id ∧
    let p2 := (Unsub id (Sub k fn p).1.2).1.2 in
    split_first id = k ∧
    (Unsub id (Sub k fn p).1.2).1.1 = Returned true ∧
    (∃ e', m p2 !! k = Some e' ∧
           listeners (localSubs e') = listeners (localSubs (the_entry k p))) ∧
    s p2 = s p ∧
    (∀ k', k' ≠ k → m p2 !! k' = m p !! k') ∧
    (∀ val : T, (Put k val p2).2 = (Put k val p).2).
Proof. apply sub_unsub_key. Qed.

(** X11. Round trip on the wildcard: in a reachable store, a global [Sub]
    returns an identifier and [Unsub] of it returns [true]; afterwards the
    global registry holds the listeners of before, its counter is one more,
    and every entry other than ["global"] is as before. *)
Theorem X11_sub_unsub_global (fn : Fn) (p : PubSub) :
  reachable p →
  ∃ id : string,
    (Sub "*" fn p).1.1 = Returned id ∧
    let p2 := (Unsub id (Sub "*" fn p).1.2).1.2 in
    (Unsub id (Sub "*" fn p).1.2).1.1 = Returned true ∧
    listeners (s p2) = listeners (s p) ∧
    counter (s p2) = (counter (s p) + 1)%N ∧
    (∀ k, k ≠ "global" → m p2 !! k = m p !! k).
Proof.
  intros Hr.
  pose proof (reachable_wf p Hr) as Hwf.
  pose proof (reachable_ids_bounded p Hr) as Hb.
  destruct (mint_global_fresh p Hwf Hb) as [Hfresh Hfresh_e].
  rewrite Sub_wildcard. cbn [fst snd].
  destruct (sub_spec fn p) as (Hid & Hs & Hm). rewrite Hid.
  exists (mint (s p)). split; [done|]. cbv zeta.
  assert (split_first (mint (s p)) = "global") as Hroute.
  { apply global_id_prefix. exists (counter (s p)). unfold mint.
    by rewrite (proj1 Hwf). }
  rewrite Unsub_global by done.
  destruct (unsub_present (mint (s p)) (sub fn p).2)
    as (p2 & -> & _ & Hc & Hl & Hm2).
  { rewrite Hs. simpl. rewrite lookup_insert_eq. by eexists. }
  cbn [fst snd]. rewrite Hl, Hc, Hs. simpl. split_and!; [done| |done|].
  - by rewrite delete_insert_id.
  - intros k Hk. rewrite Hm2, Hm.
    destruct (m p !! k) as [e|] eqn:He; [|done]. simpl. f_equal.
    rewrite Entry_Unsub_remove. unfold remove_listener. simpl.
    rewrite delete_insert_id by (by eapply Hfresh_e).
    by destruct e as [? ? []].
Qed.

Lemma counter_exec (c : call) (p : PubSub) :
  (counter (s p) ≤ counter (s (exec c p)))%N.
Proof.
  destruct c as [k|k val|k|k fn|id|]; simpl.
  - by rewrite (proj1 (Get_state k p)).
  - destruct (decide (k = "*")) as [->|Hk]; [done|].
    destruct (serves_or_not k p) as [Hserves|[Hnone Hi]];
      [by rewrite Put_eq|by rewrite Put_thrown].
  - by rewrite (proj1 (proj2 (Delete_post k p))).
  - destruct (decide (k = "*")) as [->|Hk].
    + rewrite Sub_wildcard. cbn [fst snd].
      destruct (sub_spec fn p) as (_ & -> & _). simpl. lia.
    + destruct (serves_or_not k p) as [Hserves|[Hnone Hi]];
        [by rewrite Sub_eq|by rewrite Sub_thrown].
  - destruct (decide (split_first id = "global")) as [Hroute|Hroute].
    + rewrite Unsub_global by done.
      destruct (listeners (s p) !! id) as [fn|] eqn:Hid.
      * destruct (unsub_present id p) as (p' & -> & _ & Hc & _);
          [by eexists|]. cbn [fst snd]. by rewrite Hc.
      * by rewrite unsub_absent.
    + destruct (m p !! split_first id) as [e|] eqn:He;
        [|by rewrite (proj1 (Unsub_none id p Hroute He))].
      by rewrite (Unsub_stored _ _ _ Hroute He).
  - by rewrite Close_spec.
Qed.

Lemma counter_run (cs : list call) (p : PubSub) :
  (counter (s p) ≤ counter (s (run cs p)))%N.
Proof.
  revert p. induction cs as [|c cs IH]; intros p; [done|].
  etrans; [apply (counter_exec c p)|apply IH].
Qed.

(** X12. A global identifier is never handed out twice: in a reachable
    store, whatever is called after a global [Sub], also [Unsub], [Delete]
    and [Close], a later global [Sub] returns another identifier. *)
Theorem X12_global_ids_fresh (fn fn' : Fn) (cs : list call) (p : PubSub) :
  reachable p →
  ∃ id id' : string,
    (Sub "*" fn p).1.1 = Returned id ∧
    (Sub "*" fn' (run cs (Sub "*" fn p).1.2)).1.1 = Returned id' ∧
    id ≠ id'.
Proof.
  intros Hr.
  assert (reachable (Sub "*" fn p).1.2) as Hr1
    by apply (reachable_exec (CallSub "*" fn) p Hr).
  pose proof (reachable_wf _ (reachable_run cs _ Hr1)) as (Hg2 & _).
  pose proof (reachable_wf p Hr) as (Hg & _).
  pose proof (counter_run cs (Sub "*" fn p).1.2) as Hle.
  revert Hg2 Hle. rewrite !Sub_wildcard. cbn [fst snd].
  destruct (sub_spec fn p) as (-> & -> & _).
  set (p' := run cs (sub fn p).2).
  destruct (sub_spec fn' p') as (-> & _). simpl.
  intros Hg2 Hle. exists (mint (s p)), (mint (s p')).
  split_and!; [done..|]. intros Heq. unfold mint in Heq.
  rewrite Hg, Hg2 in Heq. apply mint_inj in Heq. lia.
Qed.

(** X13. In a reachable store, an entry whose key is not ["global"] holds
    under a global identifier what the global registry holds under it, and
    nothing when the global registry holds nothing. *)
Theorem X13_fan_out_exact (k id : string) (e : Entry) (p : PubSub) :
  reachable p → k ≠ "global" → m p !! k = Some e → global_id id →
  listeners (localSubs e) !! id = listeners (s p) !! id.
Proof.
  intros Hr Hk He Hid.
  pose proof (reachable_fan_out_local p Hr) as Hfan.
  pose proof (reachable_ids_bounded p Hr) as [_ Hloc].
  destruct (listeners (s p) !! id) as [fn|] eqn:Hs; [by eapply Hfan|].
  destruct (listeners (localSubs e) !! id) as [fn|] eqn:Hl; [|done].
  destruct (Hloc k e He Hk id fn Hl) as [Hin|(n & _ & Heq)]; [congruence|].
  destruct Hid as [n' ->].
  apply last_sep_unique in Heq as [Heq _]; [congruence|apply pretty_N_clean..].
Qed.

(** X14. Global subscriptions outlive [Close]: a [Put] after [Close], on a
    key other than the wildcard and the inherited names, calls every
    listener of the global registry and no one else.  A second [Close]
    calls no one and changes nothing. *)
Theorem X14_close_keeps_globals (k : string) (val : T) (p : PubSub) :
  k ≠ "*" → inherited k = false →
  (Put k val (Close p).1.2).2
  = (λ q, Notify q.2 (Some val) k) <$> map_to_list (listeners (s p)) ∧
  Close (Close p).1.2 = (Returned tt, (Close p).1.2, []).
Proof.
  intros Hk Hi. rewrite (Close_spec p). cbn [fst snd]. split.
  - rewrite Put_eq by (try done; by right). cbn [snd].
    rewrite the_entry_absent by apply lookup_empty.
    rewrite notifications_fmap.
    by destruct (fresh_entry_fields k {| m := ∅; s := s p |})
      as (-> & _ & _ & _ & ->).
  - rewrite Close_spec. simpl. by rewrite map_to_list_empty.
Qed.

(** X15. [Sub] on a key without an entry, other than the wildcard and the
    inherited names, creates an entry without a value: [Get] on the key is
    still [null], and a [Delete] of the key returns [true], calls the
    listener with [null] and leaves the store as it was before the [Sub]. *)
Theorem X15_sub_then_delete (k : string) (fn : Fn) (p : PubSub) :
  k ≠ "*" → inherited k = false → m p !! k = None →
  (Get k (Sub k fn p).1.2).1.1 = Returned None ∧
  (Delete k (Sub k fn p).1.2).1 = (Returned true, p) ∧
  Notify fn None k ∈ (Delete k (Sub k fn p).1.2).2.
Proof.
  intros Hk Hi Hnone. rewrite Sub_eq by (try done; by right). cbn [fst snd].
  rewrite (the_entry_absent _ _ Hnone).
  destruct (fresh_entry_fields k p) as (Hkey & Hval & _).
  split_and!.
  - rewrite Get_result. simpl. rewrite lookup_insert_eq. simpl. by rewrite Hval.
  - erewrite Delete_present by apply lookup_insert_eq. simpl.
    rewrite delete_insert_id by done. by rewrite store_eta.
  - erewrite Delete_present by apply lookup_insert_eq. cbn [snd].
    pose proof (notifications_elem None
                  (Entry_Sub fn None (fresh_entry k p)).2
                  (mint (localSubs (fresh_entry k p))) fn) as Hin.
    change (key (Entry_Sub fn None (fresh_entry k p)).2)
      with (key (fresh_entry k p)) in Hin.
    rewrite Hkey in Hin. apply Hin. simpl. apply lookup_insert_eq.
Qed.

Lemma elem_of_concat {A : Type} (x : A) (ls : list (list A)) :
  x ∈ concat ls ↔ ∃ l, x ∈ l ∧ l ∈ ls.
Proof.
  induction ls as [|l0 ls IH]; simpl.
  - split; [by intros ?%elem_of_nil|]. by intros (l & _ & ?%elem_of_nil).
  - rewrite elem_of_app, IH. split.
    + intros [Hx|(l & Hx & Hl)].
      * exists l0. split; [done|]. by left.
      * exists l. split; [done|]. by right.
    + intros (l & Hx & Hl). apply elem_of_cons in Hl as [->|Hl].
      * by left.
      * right. by exists l.
Qed.

(** X16. In a reachable store, [Close] calls nothing but listeners of the
    entries, each with [null] and the key of its entry, and writes nothing
    to the console; a global listener is called for every entry whose key is
    not ["global"]. *)
Theorem X16_close_delivery (p : PubSub) :
  reachable p →
  (∀ ev, ev ∈ (Close p).2 →
     ∃ k e id fn, m p !! k = Some e ∧
                  listeners (localSubs e) !! id = Some fn ∧
                  ev = Notify fn None k) ∧
  (∀ k e sk fn, m p !! k = Some e → k ≠ "global" →
     listeners (s p) !! sk = Some fn → Notify fn None k ∈ (Close p).2).
Proof.
  intros Hr. destruct (reachable_wf p Hr) as (_ & _ & Hent & _).
  rewrite Close_spec. cbn [snd]. split.
  - intros ev Hev. apply elem_of_concat in Hev as (l & Hev & Hl).
    apply list_elem_of_fmap in Hl as ([k e] & -> & Hke).
    apply elem_of_map_to_list in Hke. simpl in Hev.
    rewrite notifications_fmap in Hev.
    apply list_elem_of_fmap in Hev as ([id fn] & -> & Hid).
    apply elem_of_map_to_list in Hid. simpl.
    exists k, e, id, fn. by rewrite (proj1 (Hent k e Hke)).
  - intros k e sk fn He Hk Hsk. apply elem_of_concat.
    exists (notifications None e). split.
    + rewrite <- (proj1 (Hent k e He)). eapply notifications_elem.
      by eapply (reachable_fan_out_local p Hr).
    + apply list_elem_of_fmap. exists (k, e). split; [done|].
      by apply elem_of_map_to_list.
Qed.

(** X17. In a reachable store, two [Sub] on one key, other than the
    wildcard and the inherited names, return two identifiers, and the entry
    holds each listener under its own: a listener subscribed twice is
    registered twice. *)
Theorem X17_sub_twice (k : string) (fn fn' : Fn) (p : PubSub) :
  reachable p → k ≠ "*" → inherited k = false →
  ∃ id1 id2 : string,
    (Sub k fn p).1.1 = Returned id1 ∧
    (Sub k fn' (Sub k fn p).1.2).1.1 = Returned id2 ∧
    id1 ≠ id2 ∧
    ∃ e, m (Sub k fn' (Sub k fn p).1.2).1.2 !! k = Some e ∧
         listeners (localSubs e) !! id1 = Some fn ∧
         listeners (localSubs e) !! id2 = Some fn'.
Proof.
  intros Hr Hk Hi. pose proof (reachable_wf p Hr) as Hwf.
  destruct (the_entry_fields k p Hwf) as [_ Hns].
  rewrite (Sub_eq k fn p) by (try done; by right). cbn [fst snd].
  set (e0 := the_entry k p) in *.
  set (p1 := {| m := <[k := (Entry_Sub fn None e0).2]> (m p); s := s p |}).
  rewrite (Sub_eq k fn' p1) by (try done; by right). cbn [fst snd].
  rewrite (the_entry_present k p1 (Entry_Sub fn None e0).2)
    by apply lookup_insert_eq.
  assert (mint (localSubs e0) ≠ mint (localSubs (Entry_Sub fn None e0).2))
    as Hne.
  { unfold mint. simpl. intros Heq. apply mint_inj in Heq. lia. }
  do 2 eexists. split_and!; [done..|].
  eexists. split; [apply lookup_insert_eq|].
  simpl. split.
  - rewrite lookup_insert_ne by (intros Heq; by apply Hne).
    apply lookup_insert_eq.
  - apply lookup_insert_eq.
Qed.

(** X18. An identifier outlives its entry: in a reachable store, for a key
    without underscore other than ["global"], the wildcard and the inherited
    names that has no entry, the identifier of a first [Sub], used after
    [Delete] and a second [Sub] on the key, makes [Unsub] return [true] and
    removes the second listener: a later [Put] calls the global listeners
    and no one else. *)
Theorem X18_stale_id (k : string) (fn fn' : Fn) (val : T) (p : PubSub) :
  reachable p → has_underscore k = false → k ≠ "global" → k ≠ "*" →
  inherited k = false → m p !! k = None →
  ∃ id : string,
    (Sub k fn p).1.1 = Returned id ∧
    let p3 := (Sub k fn' (Delete k (Sub k fn p).1.2).1.2).1.2 in
    (Unsub id p3).1.1 = Returned true ∧
    (Put k val (Unsub id p3).1.2).2
    = (λ q, Notify q.2 (Some val) k) <$> map_to_list (listeners (s p)).
Proof.
  intros Hr Hclean Hg Hk Hi Hnone.
  set (p2 := (Delete k (Sub k fn p).1.2).1.2).
  assert (reachable p2) as Hr2.
  { apply (reachable_exec (CallDelete k)).
    by apply (reachable_exec (CallSub k fn)). }
  destruct (Delete_post k (Sub k fn p).1.2) as (Hnone2 & Hs2 & _).
  fold p2 in Hnone2, Hs2.
  assert (s p2 = s p) as Hs
    by (rewrite Hs2; by rewrite Sub_eq by (try done; by right)).
  destruct (sub_unsub_key k fn' p2 Hr2 Hclean Hg Hk Hi)
    as (id & Hid & _ & Hres & _ & _ & _ & Hput).
  exists id. split.
  { rewrite Sub_fresh_id by done. by rewrite Sub_fresh_id in Hid by done. }
  cbv zeta. split; [exact Hres|]. rewrite Hput.
  rewrite Put_eq by (try done; by right). cbn [snd].
  rewrite (the_entry_absent _ _ Hnone2), notifications_fmap.
  destruct (fresh_entry_fields k p2) as (-> & _ & _ & _ & ->).
  by rewrite Hs.
Qed.
(** X19. In a reachable store, a call on a name inherited from
    [Object.prototype] throws: [Get], [Put], [Sub] and [Delete] on the name,
    and [Unsub] of an identifier whose routing prefix is the name.  The
    store is left as it was and nothing is called or logged. *)
Theorem X19_inherited_names_throw (k : string) (p : PubSub) :
  reachable p → inherited k = true →
  m p !! k = None ∧
  Get k p = (Thrown, p, []) ∧
  (∀ val : T, Put k val p = (Thrown, p, [])) ∧
  (∀ fn : Fn, Sub k fn p = (Thrown, p, [])) ∧
  Delete k p = (Thrown, p, []) ∧
  (∀ id, split_first id = k → Unsub id p = (Thrown, p, [])).
Proof.
  intros Hr Hi. destruct (reachable_wf p Hr) as (_ & _ & Hent & _).
  assert (m p !! k = None) as Hnone.
  { destruct (m p !! k) as [e|] eqn:He; [|done].
    destruct (Hent k e He) as (_ & _ & ?). congruence. }
  split_and!; [done|by apply Get_thrown| | |by apply Delete_thrown|].
  - intros val. by apply Put_thrown.
  - intros fn. by apply Sub_thrown.
  - intros id <-. by apply Unsub_thrown.
Qed.

(** X20. [Unsub] routes on the part of the identifier before its first
    underscore.  When that part is not ["global"], is not an inherited name
    and names no entry, [Unsub] returns [false] and changes nothing; when it
    names an entry, [Unsub] returns what that entry's [Unsub] returns, the
    entry being the only thing changed. *)
Theorem X20_unsub_routing (id : string) (p : PubSub) :
  (∀ a b, has_underscore a = false → id = a +:+ "_" +:+ b →
          split_first id = a) ∧
  (has_underscore id = false → split_first id = id) ∧
  (split_first id ≠ "global" → m p !! split_first id = None →
   inherited (split_first id) = false →
   Unsub id p = (Returned false, p, [])) ∧
  (split_first id ≠ "global" →
   ∀ e, m p !! split_first id = Some e →
        Unsub id p
        = (Returned (Entry_Unsub id e).1,
           {| m := <[split_first id := (Entry_Unsub id e).2]> (m p);
              s := s p |},
           [])).
Proof.
  split_and!.
  - intros a b Ha ->. by apply split_first_sep.
  - apply split_first_id.
  - apply Unsub_missing.
  - intros Hroute e He. by apply Unsub_stored.
Qed.

(** X21. [Delete] of a key without an entry that is not an inherited name
    returns [false], changes nothing and calls no one.  [Delete] of a key
    with an entry closes that entry, which calls each of its listeners once
    with [null], removes the entry and returns [true]; in a reachable store
    the listeners called include every global listener, unless the key is
    ["global"]. *)
Theorem X21_delete (k : string) (p : PubSub) :
  (m p !! k = None → inherited k = false →
   Delete k p = (Returned false, p, [])) ∧
  (∀ e, m p !! k = Some e →
     Delete k p
     = (Returned true, {| m := delete k (m p); s := s p |},
        (Entry_Close e).2) ∧
     (Entry_Close e).2
     = (λ q, Notify q.2 None (key e)) <$> map_to_list (listeners (localSubs e)) ∧
     (∀ id fn, listeners (localSubs e) !! id = Some fn →
               Notify fn None (key e) ∈ (Delete k p).2) ∧
     (reachable p → k ≠ "global" →
      ∀ sk fn, listeners (s p) !! sk = Some fn →
               Notify fn None k ∈ (Delete k p).2)).
Proof.
  split; [apply Delete_absent|]. intros e He.
  rewrite (Delete_present _ _ _ He). split_and!.
  - done.
  - apply notifications_fmap.
  - intros id fn Hid. simpl. by eapply notifications_elem.
  - intros Hr Hk sk fn Hsk. simpl.
    destruct (reachable_wf p Hr) as (_ & _ & Hent & _).
    destruct (Hent k e He) as (<- & _ & _).
    eapply notifications_elem. by eapply (reachable_fan_out_local p Hr).
Qed.

(** X22. [Get] of a key without an entry that is not an inherited name is
    [null]; this is the case of every such key on which no [Put] and no
    [Sub] was called since [New].  [Get] of a key with an entry is that
    entry's [Get]. *)
Theorem X22_get_missing (k : string) (p : PubSub) :
  (m p !! k = None → inherited k = false → (Get k p).1.1 = Returned None) ∧
  (∀ e, m p !! k = Some e → (Get k p).1.1 = Returned (Entry_Get e)) ∧
  (inherited k = false →
   ∀ cs, Forall (λ c, ¬ creates k c) cs →
         (Get k (run cs New)).1.1 = Returned None).
Proof.
  split_and!.
  - intros Hk Hi. by rewrite Get_missing.
  - intros e Hk. by rewrite (Get_stored _ _ _ Hk).
  - intros Hi cs Hcs. rewrite Get_missing; [done| |done].
    by apply run_no_create.
Qed.

(** X23. A global subscription is forwarded at once: after [sub] the global
    registry holds the listener under the identifier returned, and so does
    every entry there is; under any other identifier every entry holds what
    it held. *)
Theorem X23_sub_forwarded (fn : Fn) (p : PubSub) :
  listeners (s (sub fn p).2) !! (sub fn p).1 = Some fn ∧
  (∀ k e, m (sub fn p).2 !! k = Some e →
          listeners (localSubs e) !! (sub fn p).1 = Some fn) ∧
  (∀ k id, id ≠ (sub fn p).1 →
     (λ e, listeners (localSubs e) !! id) <$> m (sub fn p).2 !! k
     = (λ e, listeners (localSubs e) !! id) <$> m p !! k).
Proof.
  destruct (sub_spec fn p) as (-> & -> & Hm). simpl. split_and!.
  - by rewrite lookup_insert_eq.
  - intros k e. rewrite Hm. intros He.
    apply fmap_Some in He as (e0 & _ & ->). simpl.
    by rewrite lookup_insert_eq.
  - intros k id Hne. rewrite Hm. destruct (m p !! k) as [e|]; [|done].
    simpl. by rewrite lookup_insert_ne.
Qed.
End Store.

(** ** Concrete stores *)

(** The claims on stores of numbers whose listeners are numbered. *)

(** C1. Fan-out consistency fails in a reachable store: after a global
    subscription of listener 0 and a subscription of listener 1 to the key
    ["global"], the global registry holds listener 0 under ["global_0"] and
    the entry ["global"], into which [createEntry] had forwarded listener 0
    under that identifier, holds listener 1 under it. *)
Theorem C1_global_key_collision :
  let p : @PubSub nat nat :=
    exec (CallSub "global" 1) (exec (CallSub "*" 0) New) in
  reachable p ∧
  (Sub "*" 0 (@New nat nat)).1.1 = Returned "global_0" ∧
  (Sub "global" 1 (exec (CallSub "*" 0) (@New nat nat))).1.1
  = Returned "global_0" ∧
  listeners (s p) !! "global_0" = Some 0 ∧
  (∃ e, m p !! "global" = Some e ∧
        listeners (localSubs e) !! "global_0" = Some 1) ∧
  ¬ fan_out p.
Proof.
  intros p.
  assert (listeners (s p) !! "global_0" = Some 0) as Hg
    by (vm_compute; reflexivity).
  assert (∃ e, m p !! "global" = Some e ∧
               listeners (localSubs e) !! "global_0" = Some 1) as (e & He & Hl).
  { eexists. split; vm_compute; reflexivity. }
  split_and!; [repeat constructor|by vm_compute|by vm_compute|done
              |by exists e|].
  intros Hfan. specialize (Hfan "global_0" 0 Hg "global" e He). congruence.
Qed.

Lemma C2_witness :
  let p : @PubSub nat nat := exec (CallSub "*" 7) New in
  split_first "global_3" = "global" ∧
  listeners (s p) !! "global_3" = None ∧
  Unsub "global_3" p
  = (Returned false, p, [ConsoleError "Could not unsub key!" "global_3"]) ∧
  split_first "global_0" = "global" ∧
  listeners (s p) !! "global_0" = Some 7 ∧
  (Unsub "global_0" p).1.1 = Returned true ∧
  listeners (s (Unsub "global_0" p).1.2) !! "global_0" = None.
Proof.
  intros p.
  assert (split_first "global_3" = "global") as Hroute by reflexivity.
  assert (listeners (s p) !! "global_3" = None) as Hid
    by (vm_compute; reflexivity).
  assert (split_first "global_0" = "global") as Hroute0 by reflexivity.
  assert (listeners (s p) !! "global_0" = Some 7) as Hid0
    by (vm_compute; reflexivity).
  pose proof (proj1 (C2_global_unsub "global_0" p Hroute0)
                (ex_intro _ 7 Hid0)) as Hpresent.
  pose proof (proj2 (C2_global_unsub "global_3" p Hroute) Hid) as Habsent.
  assert ((Unsub "global_0" p).1.1 = Returned true) as Hres
    by (by rewrite Hpresent).
  assert (listeners (s (Unsub "global_0" p).1.2) !! "global_0" = None) as Hgone
    by (rewrite Hpresent; apply lookup_delete_eq).
  exact (conj Hroute (conj Hid (conj Habsent
           (conj Hroute0 (conj Hid0 (conj Hres Hgone)))))).
Defined.

(** C3. [Unsub] of an identifier whose prefix is a name inherited from
    [Object.prototype]: the prefix of ["constructor_0"] is ["constructor"],
    which is not ["global"] and names no entry of the new store, and
    [Unsub] throws where it should return [false]. *)
Theorem C3_unsub_inherited_prefix :
  split_first "constructor_0" = "constructor" ∧
  "constructor" ≠ "global" ∧
  m (@New nat nat) !! "constructor" = None ∧
  Unsub "constructor_0" (@New nat nat) = (Thrown, New, []) ∧
  Unsub "constructor_0" (@New nat nat) ≠ (Returned false, New, []).
Proof. split_and!; by vm_compute. Qed.

(** C4, the wildcard: [Put] on it stores nothing, and [Get] returns [null]
    rather than the value. *)
Lemma C4_counterexample :
  (Get "*" (Put "*" 5 (@New nat nat)).1.2).1.1 = Returned None ∧
  (Get "*" (Put "*" 5 (@New nat nat)).1.2).1.1 ≠ Returned (Some 5).
Proof. split; vm_compute; [reflexivity|discriminate]. Qed.

Lemma C4_witness :
  "a" ≠ "*" ∧ inherited "a" = false ∧
  (Get "a" (Put "a" 5 (@New nat nat)).1.2).1.1 = Returned (Some 5).
Proof.
  assert ("a" ≠ "*") as Hk by discriminate.
  assert (inherited "a" = false) as Hi by reflexivity.
  exact (conj Hk (conj Hi (proj2 (C4_get_put "a" 5 New Hk Hi)))).
Defined.

Lemma C5_witness :
  let p : @PubSub nat nat :=
    exec (CallPut "*" 1) (exec (CallSub "*" 0) New) in
  reachable p ∧ m p !! "*" = None.
Proof.
  intros p.
  assert (reachable p) as Hr by (repeat constructor).
  exact (conj Hr (proj1 (C5_wildcard_reserved p Hr))).
Defined.

(** C6. [Delete] of a name inherited from [Object.prototype]: the new store
    has no entry under ["toString"], and [Delete] throws where it should
    return [false]. *)
Theorem C6_delete_inherited :
  m (@New nat nat) !! "toString" = None ∧
  Delete "toString" (@New nat nat) = (Thrown, New, []) ∧
  Delete "toString" (@New nat nat) ≠ (Returned false, New, []).
Proof. split_and!; by vm_compute. Qed.

(** C8. [Get] of a name inherited from [Object.prototype]: the new store has
    no entry under ["constructor"], no [Put] and no [Sub] was called, and
    [Get] throws where it should return [null]. *)
Theorem C8_get_inherited :
  m (@New nat nat) !! "constructor" = None ∧
  Get "constructor" (@New nat nat) = (Thrown, New, []) ∧
  (Get "constructor" (@New nat nat)).1.1 ≠ Returned None.
Proof. split_and!; by vm_compute. Qed.

(** C9, a key whose prefix is ["global"]: the identifier returned for
    ["global_x"] is routed to the global registry, which logs, and not to an
    entry named ["global"], which would not. *)
Lemma C9_counterexample :
  let p1 := (Sub "global_x" 0 (@New nat nat)).1.2 in
  reachable (@New nat nat) ∧
  has_underscore "global_x" = true ∧
  (Sub "global_x" 0 (@New nat nat)).1.1 = Returned "global_x_0" ∧
  split_first "global_x" = "global" ∧
  m p1 !! "global" = None ∧
  Unsub "global_x_0" p1
  = (Returned false, p1,
     [ConsoleError "Could not unsub key!" "global_x_0"]) ∧
  Unsub "global_x_0" p1
  ≠ match m p1 !! split_first "global_x" with
    | None => (Returned false, p1, [])
    | Some e =>
        (Returned (Entry_Unsub "global_x_0" e).1,
         {| m := <[split_first "global_x" :=
                     (Entry_Unsub "global_x_0" e).2]> (m p1);
            s := s p1 |},
         [])
    end.
Proof.
  intros p1.
  assert (Unsub "global_x_0" p1
          = (Returned false, p1,
             [ConsoleError "Could not unsub key!" "global_x_0"]))
    as Hun by (vm_compute; reflexivity).
  split_and!; [constructor|reflexivity|by vm_compute|reflexivity
              |by vm_compute|exact Hun|].
  rewrite Hun. vm_compute. discriminate.
Qed.

Lemma C9_witness :
  let p1 := (Sub "a_b" 0 (@New nat nat)).1.2 in
  reachable (@New nat nat) ∧
  has_underscore "a_b" = true ∧
  inherited "a_b" = false ∧ inherited (split_first "a_b") = false ∧
  m p1 !! split_first "a_b" = None ∧
  ∃ id, (Sub "a_b" 0 (@New nat nat)).1.1 = Returned id ∧
        (Unsub id p1).1.1 = Returned false ∧
        Notify 0 (Some 4) "a_b" ∈ (Put "a_b" 4 (Unsub id p1).1.2).2.
Proof.
  intros p1.
  assert (reachable (@New nat nat)) as Hr by constructor.
  assert (has_underscore "a_b" = true) as Hus by reflexivity.
  assert (inherited "a_b" = false) as Hi by reflexivity.
  assert (inherited (split_first "a_b") = false) as Hip by reflexivity.
  assert (m p1 !! split_first "a_b" = None) as Hnone
    by (vm_compute; reflexivity).
  destruct (C9_underscore_key "a_b" 0 New Hr Hus Hi Hip)
    as (id & Hid & _ & _ & _ & _ & _ & H).
  destruct (H Hnone) as (Hfalse & _ & _ & Hput).
  exact (conj Hr (conj Hus (conj Hi (conj Hip (conj Hnone
           (ex_intro _ id (conj Hid (conj Hfalse (Hput 4))))))))).
Defined.

Lemma C10_witness :
  "a" ≠ "*" ∧ inherited "a" = false ∧ m (@New nat nat) !! "a" = None ∧
  is_Some (m (Put "a" 1 (@New nat nat)).1.2 !! "a").
Proof.
  assert ("a" ≠ "*") as Hk by discriminate.
  assert (inherited "a" = false) as Hi by reflexivity.
  assert (m (@New nat nat) !! "a" = None) as Hnone by reflexivity.
  exact (conj Hk (conj Hi (conj Hnone
    (proj1 (proj2 (proj2 (proj2 (C10_get_pure "a" New))) Hk Hi Hnone 1 0))))).
Defined.

(** ** Scenarios *)

(** A listener of a key is called with the value put, then with [null] when
    the key is deleted, and the key has no value afterwards. *)
Example scenario_delete_closes :
  let p0 : @PubSub nat nat := (Sub "k" 0 New).1.2 in
  let p1 := (Put "k" 1 p0).1.2 in
  (Sub "k" 0 (@New nat nat)).1.1 = Returned "k_0" ∧
  (Put "k" 1 p0).2 = [Notify 0 (Some 1) "k"] ∧
  Delete "k" p1 = (Returned true, New, [Notify 0 None "k"]) ∧
  (Get "k" (Delete "k" p1).1.2).1.1 = Returned None.
Proof. split_and!; vm_compute; reflexivity. Qed.

(** A global listener is called for a key created after it subscribed, and
    no longer once it has unsubscribed. *)
Example scenario_global_fan_out :
  let p0 : @PubSub nat nat := (Sub "*" 0 New).1.2 in
  let p1 := (Put "c" 5 p0).1.2 in
  let p2 := (Unsub "global_0" p1).1.2 in
  (Sub "*" 0 (@New nat nat)).1.1 = Returned "global_0" ∧
  (Put "c" 5 p0).2 = [Notify 0 (Some 5) "c"] ∧
  (Unsub "global_0" p1).1.1 = Returned true ∧
  (Put "c" 6 p2).2 = [] ∧
  (Get "c" (Put "c" 6 p2).1.2).1.1 = Returned (Some 6).
Proof. split_and!; vm_compute; reflexivity. Qed.

(** A global listener reaches the entries that exist when it subscribes. *)
Example scenario_global_existing :
  let p0 : @PubSub nat nat := (Put "b" 2 (Put "a" 1 New).1.2).1.2 in
  let p1 := (Sub "*" 9 p0).1.2 in
  (Put "a" 3 p1).2 = [Notify 9 (Some 3) "a"] ∧
  (Put "b" 3 p1).2 = [Notify 9 (Some 3) "b"].
Proof. split_and!; vm_compute; reflexivity. Qed.

(** A call on a name inherited from [Object.prototype] throws and leaves the
    store as it was. *)
Example scenario_inherited_names :
  Put "__proto__" 1 (@New nat nat) = (Thrown, New, []) ∧
  Sub "valueOf" 0 (@New nat nat) = (Thrown, New, []) ∧
  Get "toString" (@New nat nat) = (Thrown, New, []) ∧
  Delete "hasOwnProperty" (@New nat nat) = (Thrown, New, []) ∧
  Unsub "toString_x_0" (@New nat nat) = (Thrown, New, []).
Proof. split_and!; vm_compute; reflexivity. Qed.

(** ** The further properties on concrete stores *)

Lemma X1_witness :
  m (@New nat nat) !! "a" = None ∧ inherited "a" = false ∧
  listeners (localSubs (fresh_entry "a" (@New nat nat)))
  = listeners (s (@New nat nat)) ∧
  m (@New nat nat) !! "valueOf" = None ∧ inherited "valueOf" = true ∧
  createEntry "valueOf" (@New nat nat) = (Foreign, New).
Proof.
  assert (m (@New nat nat) !! "a" = None) as Hk by reflexivity.
  assert (inherited "a" = false) as Hi by reflexivity.
  assert (m (@New nat nat) !! "valueOf" = None) as Hk' by reflexivity.
  assert (inherited "valueOf" = true) as Hi' by reflexivity.
  destruct (proj1 (proj2 (X1_createEntry "a" (@New nat nat))) Hk Hi)
    as (_ & _ & _ & _ & Hl).
  exact (conj Hk (conj Hi (conj Hl (conj Hk' (conj Hi'
           (proj1 (proj2 (proj2 (X1_createEntry "valueOf" (@New nat nat))))
              Hk' Hi')))))).
Defined.

Lemma X3_witness :
  "a" ≠ "*" ∧ s (Put "a" 1 (@New nat nat)).1.2 = s (@New nat nat).
Proof.
  assert ("a" ≠ "*") as Hk by discriminate.
  exact (conj Hk (proj1 (X3_put_frame "a" 1 New Hk))).
Defined.

Lemma X4_witness :
  let p : @PubSub nat nat := exec (CallSub "*" 0) New in
  reachable p ∧ "a" ≠ "*" ∧ m p !! "a" = None ∧ inherited "a" = false ∧
  (Put "a" 5 p).2
  = (λ q, Notify q.2 (Some 5) "a") <$> map_to_list (listeners (s p)).
Proof.
  intros p.
  assert (reachable p) as Hr by (repeat constructor).
  assert ("a" ≠ "*") as Hk by discriminate.
  assert (m p !! "a" = None) as Hnone by (vm_compute; reflexivity).
  assert (inherited "a" = false) as Hi by reflexivity.
  exact (conj Hr (conj Hk (conj Hnone (conj Hi
           (proj1 (X4_put_delivery "a" 5 p Hr Hk) Hnone Hi))))).
Defined.

Lemma X5_witness :
  let p : @PubSub nat nat := exec (CallPut "a" 1) New in
  inherited "a" = false ∧
  Delete "a" (Delete "a" p).1.2 = (Returned false, (Delete "a" p).1.2, []).
Proof.
  intros p.
  assert (inherited "a" = false) as Hi by reflexivity.
  exact (conj Hi
           (proj1 (proj2 (proj2 (proj2 (X5_delete_frame "a" p))) Hi))).
Defined.

Lemma X6_witness :
  "a" ≠ "*" ∧ inherited "a" = false ∧ m (@New nat nat) !! "a" = None ∧
  ∃ id, (Sub "a" 0 (@New nat nat)).1.1 = Returned id ∧
        (Sub "a" 1 (Delete "a" (Sub "a" 0 (@New nat nat)).1.2).1.2).1.1
        = Returned id.
Proof.
  assert ("a" ≠ "*") as Hk by discriminate.
  assert (inherited "a" = false) as Hi by reflexivity.
  assert (m (@New nat nat) !! "a" = None) as Hnone by reflexivity.
  exact (conj Hk (conj Hi (conj Hnone
           (proj2 (X6_delete_forgets "a" 0 1 7 New Hk Hi) Hnone)))).
Defined.

Lemma X7_witness :
  let p : @PubSub nat nat := exec (CallSub "a" 0) New in
  inherited (split_first "a_0") = false ∧
  (Unsub "a_0" p).1.1 = Returned true ∧
  (Unsub "a_0" (Unsub "a_0" p).1.2).1.1 = Returned false.
Proof.
  intros p.
  assert (inherited (split_first "a_0") = false) as Hi by reflexivity.
  assert ((Unsub "a_0" p).1.1 = Returned true) as Hfirst
    by (vm_compute; reflexivity).
  exact (conj Hi (conj Hfirst (proj2 (X7_unsub_twice "a_0" p) Hi))).
Defined.

Lemma X8_witness :
  (Unsub "a_0" (@New nat nat)).1.1 ≠ Returned true ∧
  (Unsub "a_0" (@New nat nat)).1.2 = @New nat nat.
Proof.
  assert ((Unsub "a_0" (@New nat nat)).1.1 ≠ Returned true) as Hres
    by (vm_compute; discriminate).
  exact (conj Hres (X8_unsub_false_unchanged "a_0" New Hres)).
Defined.

Lemma X10_witness :
  reachable (@New nat nat) ∧ has_underscore "a" = false ∧
  "a" ≠ "global" ∧ "a" ≠ "*" ∧ inherited "a" = false ∧
  ∃ id, (Sub "a" 0 (@New nat nat)).1.1 = Returned id ∧
        (Unsub id (Sub "a" 0 (@New nat nat)).1.2).1.1 = Returned true.
Proof.
  assert (reachable (@New nat nat)) as Hr by constructor.
  assert (has_underscore "a" = false) as Hclean by reflexivity.
  assert ("a" ≠ "global") as Hg by discriminate.
  assert ("a" ≠ "*") as Hk by discriminate.
  assert (inherited "a" = false) as Hi by reflexivity.
  destruct (X10_sub_unsub_key "a" 0 New Hr Hclean Hg Hk Hi)
    as (id & Hid & _ & Hres & _).
  exact (conj Hr (conj Hclean (conj Hg (conj Hk (conj Hi
           (ex_intro _ id (conj Hid Hres))))))).
Defined.

Lemma X11_witness :
  reachable (@New nat nat) ∧
  ∃ id, (Sub "*" 0 (@New nat nat)).1.1 = Returned id ∧
        (Unsub id (Sub "*" 0 (@New nat nat)).1.2).1.1 = Returned true.
Proof.
  assert (reachable (@New nat nat)) as Hr by constructor.
  destruct (X11_sub_unsub_global 0 New Hr) as (id & Hid & Hres & _).
  exact (conj Hr (ex_intro _ id (conj Hid Hres))).
Defined.

Lemma X12_witness :
  reachable (@New nat nat) ∧
  ∃ id id',
    (Sub "*" 0 (@New nat nat)).1.1 = Returned id ∧
    (Sub "*" 1 (run [CallUnsub "global_0"] (Sub "*" 0 (@New nat nat)).1.2)).1.1
    = Returned id' ∧
    id ≠ id'.
Proof.
  assert (reachable (@New nat nat)) as Hr by constructor.
  exact (conj Hr (X12_global_ids_fresh 0 1 [CallUnsub "global_0"] New Hr)).
Defined.

Lemma X13_witness :
  let p : @PubSub nat nat :=
    exec (CallSub "*" 0) (exec (CallPut "a" 1) New) in
  reachable p ∧ "a" ≠ "global" ∧ global_id "global_0" ∧
  ∃ e, m p !! "a" = Some e ∧
       listeners (localSubs e) !! "global_0" = listeners (s p) !! "global_0".
Proof.
  intros p.
  assert (reachable p) as Hr by (repeat constructor).
  assert ("a" ≠ "global") as Hg by discriminate.
  assert (global_id "global_0") as Hid by (exists 0%N; reflexivity).
  assert (∃ e, m p !! "a" = Some e) as [e He]
    by (eexists; vm_compute; reflexivity).
  exact (conj Hr (conj Hg (conj Hid
           (ex_intro _ e (conj He
              (X13_fan_out_exact "a" "global_0" e p Hr Hg He Hid)))))).
Defined.

Lemma X14_witness :
  "a" ≠ "*" ∧ inherited "a" = false ∧
  Close (Close (@New nat nat)).1.2
  = (Returned tt, (Close (@New nat nat)).1.2, []).
Proof.
  assert ("a" ≠ "*") as Hk by discriminate.
  assert (inherited "a" = false) as Hi by reflexivity.
  exact (conj Hk (conj Hi (proj2 (X14_close_keeps_globals "a" 1 New Hk Hi)))).
Defined.

Lemma X15_witness :
  "a" ≠ "*" ∧ inherited "a" = false ∧ m (@New nat nat) !! "a" = None ∧
  (Delete "a" (Sub "a" 0 (@New nat nat)).1.2).1 = (Returned true, @New nat nat).
Proof.
  assert ("a" ≠ "*") as Hk by discriminate.
  assert (inherited "a" = false) as Hi by reflexivity.
  assert (m (@New nat nat) !! "a" = None) as Hnone by reflexivity.
  exact (conj Hk (conj Hi (conj Hnone
           (proj1 (proj2 (X15_sub_then_delete "a" 0 New Hk Hi Hnone)))))).
Defined.

Lemma X16_witness :
  let p : @PubSub nat nat :=
    exec (CallSub "*" 0) (exec (CallPut "a" 1) New) in
  reachable p ∧ "a" ≠ "global" ∧
  listeners (s p) !! "global_0" = Some 0 ∧
  Notify 0 None "a" ∈ (Close p).2.
Proof.
  intros p.
  assert (reachable p) as Hr by (repeat constructor).
  assert ("a" ≠ "global") as Hg by discriminate.
  assert (listeners (s p) !! "global_0" = Some 0) as Hsk
    by (vm_compute; reflexivity).
  assert (∃ e, m p !! "a" = Some e) as [e He]
    by (eexists; vm_compute; reflexivity).
  exact (conj Hr (conj Hg (conj Hsk
           (proj2 (X16_close_delivery p Hr) "a" e "global_0" 0 He Hg Hsk)))).
Defined.

Lemma X17_witness :
  reachable (@New nat nat) ∧ "a" ≠ "*" ∧ inherited "a" = false ∧
  ∃ id1 id2,
    (Sub "a" 0 (@New nat nat)).1.1 = Returned id1 ∧
    (Sub "a" 0 (Sub "a" 0 (@New nat nat)).1.2).1.1 = Returned id2 ∧
    id1 ≠ id2.
Proof.
  assert (reachable (@New nat nat)) as Hr by constructor.
  assert ("a" ≠ "*") as Hk by discriminate.
  assert (inherited "a" = false) as Hi by reflexivity.
  destruct (X17_sub_twice "a" 0 0 New Hr Hk Hi)
    as (id1 & id2 & H1 & H2 & Hne & _).
  exact (conj Hr (conj Hk (conj Hi
           (ex_intro _ id1 (ex_intro _ id2 (conj H1 (conj H2 Hne))))))).
Defined.

Lemma X18_witness :
  reachable (@New nat nat) ∧ has_underscore "a" = false ∧
  "a" ≠ "global" ∧ "a" ≠ "*" ∧ inherited "a" = false ∧
  m (@New nat nat) !! "a" = None ∧
  ∃ id, (Sub "a" 0 (@New nat nat)).1.1 = Returned id ∧
        (Unsub id
           (Sub "a" 1 (Delete "a" (Sub "a" 0 (@New nat nat)).1.2).1.2).1.2).1.1
        = Returned true.
Proof.
  assert (reachable (@New nat nat)) as Hr by constructor.
  assert (has_underscore "a" = false) as Hclean by reflexivity.
  assert ("a" ≠ "global") as Hg by discriminate.
  assert ("a" ≠ "*") as Hk by discriminate.
  assert (inherited "a" = false) as Hi by reflexivity.
  assert (m (@New nat nat) !! "a" = None) as Hnone by reflexivity.
  destruct (X18_stale_id "a" 0 1 7 New Hr Hclean Hg Hk Hi Hnone)
    as (id & Hid & Hres & _).
  exact (conj Hr (conj Hclean (conj Hg (conj Hk (conj Hi (conj Hnone
           (ex_intro _ id (conj Hid Hres)))))))).
Defined.

Lemma X19_witness :
  let p : @PubSub nat nat := exec (CallPut "a" 1) New in
  reachable p ∧ inherited "toString" = true ∧
  Get "toString" p = (Thrown, p, []) ∧
  Unsub "toString_0" p = (Thrown, p, []).
Proof.
  intros p.
  assert (reachable p) as Hr by (repeat constructor).
  assert (inherited "toString" = true) as Hi by reflexivity.
  destruct (X19_inherited_names_throw "toString" p Hr Hi)
    as (_ & Hget & _ & _ & _ & Hunsub).
  exact (conj Hr (conj Hi (conj Hget (Hunsub "toString_0" eq_refl)))).
Defined.

Lemma X20_witness :
  split_first "a_0" ≠ "global" ∧
  m (@New nat nat) !! split_first "a_0" = None ∧
  inherited (split_first "a_0") = false ∧
  Unsub "a_0" (@New nat nat) = (Returned false, New, []).
Proof.
  assert (split_first "a_0" ≠ "global") as Hroute by (vm_compute; discriminate).
  assert (m (@New nat nat) !! split_first "a_0" = None) as Hnone
    by (vm_compute; reflexivity).
  assert (inherited (split_first "a_0") = false) as Hi by reflexivity.
  exact (conj Hroute (conj Hnone (conj Hi
           (proj1 (proj2 (proj2 (X20_unsub_routing "a_0" (@New nat nat))))
              Hroute Hnone Hi)))).
Defined.

Lemma X21_witness :
  m (@New nat nat) !! "a" = None ∧ inherited "a" = false ∧
  Delete "a" (@New nat nat) = (Returned false, New, []).
Proof.
  assert (m (@New nat nat) !! "a" = None) as Hk by reflexivity.
  assert (inherited "a" = false) as Hi by reflexivity.
  exact (conj Hk (conj Hi (proj1 (X21_delete "a" (@New nat nat)) Hk Hi))).
Defined.

Lemma X22_witness :
  m (@New nat nat) !! "a" = None ∧ inherited "a" = false ∧
  (Get "a" (@New nat nat)).1.1 = Returned None.
Proof.
  assert (m (@New nat nat) !! "a" = None) as Hk by reflexivity.
  assert (inherited "a" = false) as Hi by reflexivity.
  exact (conj Hk (conj Hi (proj1 (X22_get_missing "a" (@New nat nat)) Hk Hi))).
Defined.

Lemma X23_witness :
  let p : @PubSub nat nat := exec (CallPut "a" 1) New in
  ∃ e, m (sub 0 p).2 !! "a" = Some e ∧
       listeners (localSubs e) !! (sub 0 p).1 = Some 0.
Proof.
  intros p.
  assert (∃ e, m (sub 0 p).2 !! "a" = Some e) as [e He]
    by (eexists; vm_compute; reflexivity).
  exact (ex_intro _ e
           (conj He (proj1 (proj2 (X23_sub_forwarded 0 p)) "a" e He))).
Defined.
